(** * Session orchestration engine of hcaptcha-challenger: a shallow embedding

    The development follows the four components of the agent package:
    - [Quota]: [agent/quota_manager.py], the persistent quota ledger;
    - [Rotation]: [RoboticArm._get_available_model_and_keys] of
      [agent/robotic_arm.py], the quota-aware model and key selection;
    - [Interceptor]: [PilotCore.task_handler] of [agent/pilot/core.py], the
      classification of network responses into the two queues;
    - [Session]: [AgentV.wait_for_challenge] of [agent/agent.py], the solve
      loop and its state machine. *)

From Stdlib Require Import ZArith String List Lia Bool.
From stdpp Require Import base option gmap strings list.

Local Open Scope Z_scope.

(** ** The quota ledger ([agent/quota_manager.py]) *)

(** Timestamps.  The source keeps timezone-aware UTC [datetime] values and
    stores them as ISO-8601 text ([isoformat] / [fromisoformat], which
    round-trip).  A [datetime] has microsecond resolution, so a timestamp is
    the number of microseconds since a midnight (UTC) epoch. *)
Module Clock.

Definition usec_per_second : Z := 1000000.
Definition usec_per_day : Z := 86400 * usec_per_second.

(** [timedelta(seconds=s)] *)
Definition timedelta_seconds (s : Z) : Z := s * usec_per_second.

(** [now_utc.replace(hour=0, minute=0, second=0, microsecond=0)] *)
Definition midnight (now_utc : Z) : Z := (now_utc `div` usec_per_day) * usec_per_day.

(** [now_utc.replace(hour=8, minute=0, second=0, microsecond=0)] *)
Definition reset_time_today (now_utc : Z) : Z :=
  midnight now_utc + timedelta_seconds (8 * 3600).

(** Calendar day (UTC) of a timestamp. *)
Definition day_of (t : Z) : Z := t `div` usec_per_day.

End Clock.

Module Quota.
Import Clock.

(** One row of table [quotas]; [key_id] is the map key.
    [exhausted_at], [last_failure] and [temp_exhausted_until] are nullable
    TEXT columns, the two counters are INTEGER DEFAULT 0 and every
    statement of the source writes an integer to them. *)
Record QuotaRow : Type := mkRow {
  exhausted_at : option string;
  failure_count : Z;
  last_failure : option Z;
  temp_exhausted_until : option Z;
  backoff_count : Z
}.

(** The SQLite file: table [quotas] and table [metadata], whose only key
    used by the source is ['last_reset'] (an ISO timestamp). *)
Record DB : Type := mkDB {
  quotas : gmap string QuotaRow;
  metadata : gmap string Z
}.

Definition empty_db : DB := mkDB ∅ ∅.

(** Row inserted by [INSERT INTO quotas (key_id, ...)] before the listed
    columns are filled: every other column takes its default. *)
Definition default_row : QuotaRow := mkRow None 0 None None 0.

Definition set_failure (fc : Z) (lf : option Z) (r : QuotaRow) : QuotaRow :=
  mkRow (exhausted_at r) fc lf (temp_exhausted_until r) (backoff_count r).
Definition set_temp (u : option Z) (r : QuotaRow) : QuotaRow :=
  mkRow (exhausted_at r) (failure_count r) (last_failure r) u (backoff_count r).
Definition set_backoff (bc : Z) (r : QuotaRow) : QuotaRow :=
  mkRow (exhausted_at r) (failure_count r) (last_failure r)
        (temp_exhausted_until r) bc.

Definition with_quotas (q : gmap string QuotaRow) (db : DB) : DB :=
  mkDB q (metadata db).

(** Python truthiness of a nullable TEXT value: [None] and [''] are falsy. *)
Definition truthy_text (o : option string) : bool :=
  match o with
  | Some s => negb (String.eqb s "")
  | None => false
  end.

Section Ledger.

(** [hashlib.sha256(api_key.encode()).hexdigest()[:12]]: the digest is
    outside the repository; the ledger only uses it as a function. *)
Variable sha256_hex12 : string → string.

(** [_generate_key_id] *)
Definition _generate_key_id (api_key model : string) : string :=
  (sha256_hex12 api_key ++ "_" ++ model)%string.

(** [_init_db]: both tables are created when missing.  [None] is a cache
    directory without a database file. *)
Definition _init_db (store : option DB) : DB :=
  match store with
  | Some db => db
  | None => empty_db
  end.

(** The flag [should_reset] computed by [_check_reset]. *)
Definition should_reset (now_utc : Z) (db : DB) : bool :=
  match metadata db !! "last_reset"%string with
  | None => true
  | Some last_reset =>
      (reset_time_today now_utc <=? now_utc)
      && (last_reset <? reset_time_today now_utc)
  end.

(** [_check_reset]; [now_utc] is its reading of [datetime.now]. *)
Definition _check_reset (now_utc : Z) (db : DB) : DB :=
  if should_reset now_utc db
  then mkDB ∅ (<["last_reset"%string := now_utc]> (metadata db))
  else db.

(** [__init__] *)
Definition __init__ (now_utc : Z) (store : option DB) : DB :=
  _check_reset now_utc (_init_db store).

(** Step 3 of [is_exhausted]: [failure_count and failure_count >= 3]. *)
Definition unstable (r : QuotaRow) : bool :=
  negb (failure_count r =? 0) && (3 <=? failure_count r).

(** [is_exhausted].  [now_reset] is the clock reading of the reset check,
    [now_check] the one of the cooldown comparison (taken only when the
    row has a cooldown and no daily mark). *)
Definition is_exhausted (now_reset now_check : Z) (api_key model : string)
    (db : DB) : bool * DB :=
  let db1 := _check_reset now_reset db in
  let key_id := _generate_key_id api_key model in
  match quotas db1 !! key_id with
  | Some row =>
      if truthy_text (exhausted_at row) then (true, db1)
      else
        match temp_exhausted_until row with
        | Some until_dt =>
            if now_check <? until_dt then (true, db1)
            else
              let db2 :=
                with_quotas (<[key_id := set_temp None row]> (quotas db1)) db1 in
              (unstable row, db2)
        | None => (unstable row, db1)
        end
  | None => (false, db1)
  end.

(** The cooldown of [mark_exhausted]:
    [min(30 * (2 ** (new_count - 1)), 960)].  [new_count] is at least 1
    on every ledger the source produces, where Python's [**] is the
    integer power. *)
Definition backoff_seconds (new_count : Z) : Z :=
  Z.min (30 * 2 ^ (new_count - 1)) 960.

(** [row[0] if row else 0] over [SELECT backoff_count]. *)
Definition current_backoff (key_id : string) (db : DB) : Z :=
  match quotas db !! key_id with
  | Some row => backoff_count row
  | None => 0
  end.

(** [INSERT INTO quotas ... ON CONFLICT(key_id) DO UPDATE SET ...]:
    [fresh] is the inserted row, [update] the change of a present one. *)
Definition upsert (key_id : string) (fresh : QuotaRow)
    (update : QuotaRow → QuotaRow) (db : DB) : DB :=
  let row' :=
    match quotas db !! key_id with
    | Some row => update row
    | None => fresh
    end in
  with_quotas (<[key_id := row']> (quotas db)) db.

(** [mark_exhausted] *)
Definition mark_exhausted (now_utc : Z) (api_key model : string) (db : DB) : DB :=
  let key_id := _generate_key_id api_key model in
  let current_count := current_backoff key_id db in
  let new_count := current_count + 1 in
  let until_dt := now_utc + timedelta_seconds (backoff_seconds new_count) in
  let write r := set_backoff new_count (set_temp (Some until_dt) r) in
  upsert key_id (write default_row) write db.

(** [mark_temporary_exhaustion] *)
Definition mark_temporary_exhaustion (now_utc : Z) (api_key model : string)
    (seconds : Z) (db : DB) : DB :=
  let key_id := _generate_key_id api_key model in
  let until_dt := now_utc + timedelta_seconds seconds in
  upsert key_id (set_temp (Some until_dt) default_row)
         (set_temp (Some until_dt)) db.

(** [mark_failure]; the closing [SELECT] only feeds the log. *)
Definition mark_failure (now_utc : Z) (api_key model : string) (db : DB) : DB :=
  let key_id := _generate_key_id api_key model in
  upsert key_id (set_failure 1 (Some now_utc) default_row)
         (λ r, set_failure (failure_count r + 1) (Some now_utc) r) db.

(** The [SET] clause of [mark_success]. *)
Definition success_update (r : QuotaRow) : QuotaRow :=
  mkRow (exhausted_at r) 0 None None (Z.max 0 (backoff_count r - 2)).

(** [mark_success]: an [UPDATE ... WHERE key_id = ?], which touches no
    row when the key has none. *)
Definition mark_success (api_key model : string) (db : DB) : DB :=
  let key_id := _generate_key_id api_key model in
  with_quotas (alter success_update key_id (quotas db)) db.

(** The ledger operations other than construction, as a caller issues
    them; each carries the clock readings it makes. *)
Inductive Op : Type :=
| OpIsExhausted (now_reset now_check : Z) (api_key model : string)
| OpMarkExhausted (now_utc : Z) (api_key model : string)
| OpMarkTemporary (now_utc : Z) (api_key model : string) (seconds : Z)
| OpMarkFailure (now_utc : Z) (api_key model : string)
| OpMarkSuccess (api_key model : string).

Definition run_op (op : Op) (db : DB) : DB :=
  match op with
  | OpIsExhausted t1 t2 k m => snd (is_exhausted t1 t2 k m db)
  | OpMarkExhausted t k m => mark_exhausted t k m db
  | OpMarkTemporary t k m s => mark_temporary_exhaustion t k m s db
  | OpMarkFailure t k m => mark_failure t k m db
  | OpMarkSuccess k m => mark_success k m db
  end.

Definition run_ops (ops : list Op) (db : DB) : DB :=
  fold_left (λ d op, run_op op d) ops db.

(** The failure counter of a key, read like [current_backoff]: 0 for a
    key without a row. *)
Definition current_failures (key_id : string) (db : DB) : Z :=
  match quotas db !! key_id with
  | Some row => failure_count row
  | None => 0
  end.

(** The cooldown, in seconds, that the ledger holds for a key at time
    [now_utc]: the distance to [temp_exhausted_until]. *)
Definition armed_cooldown (now_utc : Z) (key_id : string) (db : DB) : option Z :=
  row ← quotas db !! key_id;
  until_dt ← temp_exhausted_until row;
  Some ((until_dt - now_utc) `div` usec_per_second).

(** Successive [mark_exhausted] calls on one key, one per clock reading
    of [nows]; the cooldown found in the ledger after each call is
    collected. *)
Fixpoint exhaust_repeatedly (nows : list Z) (api_key model : string) (db : DB)
    : list (option Z) * DB :=
  match nows with
  | [] => ([], db)
  | t :: rest =>
      let db1 := mark_exhausted t api_key model db in
      let '(cs, db') := exhaust_repeatedly rest api_key model db1 in
      (armed_cooldown t (_generate_key_id api_key model) db1 :: cs, db')
  end.

(** The cooldowns of the specification for [n] calls that start from
    backoff counter [c]: [min(30 * 2^c, 960)], then the same for
    [c + 1], and so on. *)
Fixpoint backoff_schedule (c : Z) (n : nat) : list (option Z) :=
  match n with
  | O => []
  | S n' => Some (Z.min (30 * 2 ^ c) 960) :: backoff_schedule (c + 1) n'
  end.

(** The three disqualifiers of a row as the specification lists them:
    the daily mark, a cooldown that ends after [now_check], or three
    failures in a row. *)
Definition disqualified (now_check : Z) (row : QuotaRow) : Prop :=
  truthy_text (exhausted_at row) = true
  ∨ (∃ u, temp_exhausted_until row = Some u ∧ now_check < u)
  ∨ 3 ≤ failure_count row.

(** The invariants of the data model: both counters are non-negative. *)
Definition wf_row (r : QuotaRow) : Prop :=
  0 ≤ failure_count r ∧ 0 ≤ backoff_count r.

Definition wf_db (db : DB) : Prop :=
  ∀ key_id r, quotas db !! key_id = Some r → wf_row r.

End Ledger.
End Quota.

(** ** The rotation scheduler ([agent/robotic_arm.py]) *)

Module Rotation.

(** The local list [model_priority] of the source, lightest model first. *)
Definition model_priority : list string :=
  ["gemini-2.5-flash"; "gemini-2.5-flash-lite"; "gemini-3-flash"]%string.

(** [if preferred_model: model_priority = [preferred_model] +
    [m for m in model_priority if m != preferred_model]].
    [None] and the empty string are falsy. *)
Definition prioritise (preferred_model : option string) (priority : list string)
    : list string :=
  match preferred_model with
  | Some p =>
      if String.eqb p "" then priority
      else p :: filter (λ m, m ≠ p) priority
  | None => priority
  end.

(** What the method returns: a tuple [(model, keys)], or the [IndexError] of
    [model_priority[0]] that only an empty priority list can raise. *)
Inductive Selection : Type :=
| Selected (model : option string) (keys : list string)
| IndexError.

Section Scheduler.

(** The ledger as the scheduler uses it: [quota_manager.is_exhausted],
    a query that may also change the ledger. *)
Variable Ledger : Type.
Variable is_exhausted : string → string → Ledger → bool * Ledger.

(** The inner loop: [for key in api_keys: if not is_exhausted(key, model):
    available_keys.append(key)]. *)
Fixpoint available_keys (model : string) (api_keys : list string) (l : Ledger)
    : list string * Ledger :=
  match api_keys with
  | [] => ([], l)
  | key :: rest =>
      let '(exhausted, l1) := is_exhausted key model l in
      let '(ks, l2) := available_keys model rest l1 in
      (if exhausted then ks else key :: ks, l2)
  end.

(** The outer loop: [for model in model_priority: ... if available_keys:
    return model, available_keys]. *)
Fixpoint first_available (models : list string) (api_keys : list string)
    (l : Ledger) : option (string * list string) * Ledger :=
  match models with
  | [] => (None, l)
  | model :: rest =>
      let '(ks, l1) := available_keys model api_keys l in
      match ks with
      | [] => first_available rest api_keys l1
      | _ :: _ => (Some (model, ks), l1)
      end
  end.

(** [_get_available_model_and_keys] over a given priority list;
    [api_keys] holds the secret values of [config.GEMINI_API_KEYS]. *)
Definition select_from (priority : list string) (preferred_model : option string)
    (api_keys : list string) (l : Ledger) : Selection * Ledger :=
  let order := prioritise preferred_model priority in
  match first_available order api_keys l with
  | (Some (model, ks), l') => (Selected (Some model) ks, l')
  | (None, l') =>
      match api_keys with
      | k0 :: _ =>
          match order with
          | m0 :: _ => (Selected (Some m0) [k0], l')
          | [] => (IndexError, l')
          end
      | [] => (Selected None [], l')
      end
  end.

(** [_get_available_model_and_keys] *)
Definition _get_available_model_and_keys (preferred_model : option string)
    (api_keys : list string) (l : Ledger) : Selection * Ledger :=
  select_from model_priority preferred_model api_keys l.

(** The ledger's replies to a sequence of [(key, model)] queries asked in
    order. *)
Fixpoint replies (queries : list (string * string)) (l : Ledger)
    : list bool * Ledger :=
  match queries with
  | [] => ([], l)
  | (key, model) :: rest =>
      let '(b, l1) := is_exhausted key model l in
      let '(bs, l2) := replies rest l1 in
      (b :: bs, l2)
  end.

(** The replies of a whole selection that would ask every model: one row
    per model of [order], one reply per key. *)
Fixpoint reply_table (order api_keys : list string) (l : Ledger)
    : list (list bool) :=
  match order with
  | [] => []
  | model :: rest =>
      let '(row, l1) := replies (map (λ k, (k, model)) api_keys) l in
      row :: reply_table rest api_keys l1
  end.

End Scheduler.

(** The keys whose reply in [row] is "not exhausted". *)
Fixpoint keep_available (api_keys : list string) (row : list bool) : list string :=
  match api_keys, row with
  | k :: ks, b :: bs =>
      if b then keep_available ks bs else k :: keep_available ks bs
  | _, _ => []
  end.

(** The first model, in priority order, whose row leaves a key. *)
Fixpoint first_fit_rows (order api_keys : list string) (table : list (list bool))
    : option (string * list string) :=
  match order, table with
  | m :: rest, row :: rows =>
      match keep_available api_keys row with
      | [] => first_fit_rows rest api_keys rows
      | ks => Some (m, ks)
      end
  | _, _ => None
  end.

(** The fail-open pair: top-priority model, first configured key. *)
Definition fail_open (order api_keys : list string) : Selection :=
  match api_keys, order with
  | k0 :: _, m0 :: _ => Selected (Some m0) [k0]
  | _ :: _, [] => IndexError
  | [], _ => Selected None []
  end.

(** The selection determined by a table of replies. *)
Definition selection_of (order api_keys : list string) (table : list (list bool))
    : Selection :=
  match first_fit_rows order api_keys table with
  | Some (m, ks) => Selected (Some m) ks
  | None => fail_open order api_keys
  end.

(** The table of a ledger whose replies are given by [exhausted]. *)
Definition table_of (exhausted : string → string → bool) (order api_keys : list string)
    : list (list bool) :=
  map (λ m, map (λ k, exhausted k m) api_keys) order.

(** The selection as the specification words it, over the replies
    [exhausted key model] of a ledger: the first model in priority order
    with a non-empty list of keys not reported exhausted, else the
    fail-open pair. *)
Definition not_exhausted_keys (exhausted : string → string → bool) (model : string)
    (api_keys : list string) : list string :=
  List.filter (λ k, negb (exhausted k model)) api_keys.

Fixpoint first_fit (exhausted : string → string → bool) (order api_keys : list string)
    : option (string * list string) :=
  match order with
  | [] => None
  | m :: rest =>
      match not_exhausted_keys exhausted m api_keys with
      | [] => first_fit exhausted rest api_keys
      | ks => Some (m, ks)
      end
  end.

Definition selectCandidate_spec (exhausted : string → string → bool)
    (order api_keys : list string) : Selection :=
  match first_fit exhausted order api_keys with
  | Some (m, ks) => Selected (Some m) ks
  | None => fail_open order api_keys
  end.

(** The scheduler on the quota manager.  [clock] gives the successive
    readings of [datetime.now]; a ledger state is the database and the
    index of the next reading. *)
Section OnQuotaManager.

Variable sha256_hex12 : string → string.
Variable clock : nat → Z.

Definition quota_is_exhausted (api_key model : string) (l : Quota.DB * nat)
    : bool * (Quota.DB * nat) :=
  let '(db, n) := l in
  let '(b, db') :=
    Quota.is_exhausted sha256_hex12 (clock n) (clock (S n)) api_key model db in
  (b, (db', S (S n))).

End OnQuotaManager.

End Rotation.

(** ** The models shared by the interceptor and the session *)

Module Models.

(** Modelled from the spec: [hcaptcha_challenger/models.py] is not among the
    sources.  A ChallengeVerdict is an opaque pass/fail signal with
    associated token data; the code reads its field [is_pass]. *)
Record CaptchaResponse : Type := mkResponse {
  is_pass : bool;
  token_data : string
}.

(** Modelled from the spec: [hcaptcha_challenger/models.py] is not among the
    sources.  A ChallengePayload is an opaque description of the current
    challenge (type, prompt text, task list, per-task configuration). *)
Record CaptchaPayload : Type := mkPayload {
  payload_data : string
}.

(** [ChallengeSignal], as far as [wait_for_challenge] returns it. *)
Inductive ChallengeSignal : Type :=
| SignalSuccess
| SignalFailure.

End Models.

(** ** The event interceptor ([agent/pilot/core.py]) *)

Module Interceptor.
Import Models.

(** [needle in s] *)
Fixpoint contains (needle s : string) : bool :=
  String.prefix needle s
  || match s with
     | EmptyString => false
     | String _ s' => contains needle s'
     end.

(** [s.endswith(suffix)] *)
Fixpoint endswith (s suffix : string) : bool :=
  String.eqb s suffix
  || match s with
     | EmptyString => false
     | String _ s' => endswith s' suffix
     end.

(** The value of [await response.json()] as the handler reads it: the
    truthiness of [data.get("pass")] and of [data.get("request_config")],
    and the outcome of the two pydantic constructors on it ([None] when
    validation raises). *)
Record JsonData : Type := mkJson {
  data_pass : bool;
  data_request_config : bool;
  as_response : option CaptchaResponse;
  as_payload : option CaptchaPayload
}.

(** A network response of the automation surface, with the outcome of the
    awaits the handler performs on it.  [json = None]: [response.json()]
    raises.  [hsw_decoded]: the payload obtained on the binary path (body,
    page-side [hsw] transform, msgpack, constructor); [None] when the
    transform returns nothing or any of these steps raises. *)
Record Response : Type := mkResp {
  url : string;
  content_type : option string;
  json : option JsonData;
  hsw_decoded : option CaptchaPayload
}.

(** The two [asyncio.Queue]s of [PilotCore], oldest entry first, and the
    number of HSW script injections made so far. *)
Record Queues : Type := mkQueues {
  captcha_payload_queue : list (option CaptchaPayload);
  captcha_response_queue : list CaptchaResponse;
  hsw_injections : nat
}.

Definition empty_queues : Queues := mkQueues [] [] 0.

(** [captcha_payload_queue.put_nowait(p)] *)
Definition put_payload (p : option CaptchaPayload) (q : Queues) : Queues :=
  mkQueues (captcha_payload_queue q ++ [p]) (captcha_response_queue q)
           (hsw_injections q).

(** [captcha_response_queue.put_nowait(cr)] *)
Definition put_response (cr : CaptchaResponse) (q : Queues) : Queues :=
  mkQueues (captcha_payload_queue q) (captcha_response_queue q ++ [cr])
           (hsw_injections q).

(** [while not captcha_response_queue.empty(): get_nowait()] *)
Definition drain_responses (q : Queues) : Queues :=
  mkQueues (captcha_payload_queue q) [] (hsw_injections q).

Definition inject_hsw (q : Queues) : Queues :=
  mkQueues (captcha_payload_queue q) (captcha_response_queue q)
           (S (hsw_injections q)).

(** The [/getcaptcha/] branch on a JSON body. *)
Definition getcaptcha_json (r : Response) (q : Queues) : Queues :=
  match json r with
  | None => put_payload None q
  | Some data =>
      if data_pass data then
        let q1 := drain_responses q in
        match as_response data with
        | Some cr => put_response cr q1
        | None => put_payload None q1
        end
      else if data_request_config data then
        match as_payload data with
        | Some p => put_payload (Some p) q
        | None => put_payload None q
        end
      else q
  end.

(** The [/checkcaptcha/] branch; its bare [except] swallows every error. *)
Definition checkcaptcha (r : Response) (q : Queues) : Queues :=
  match json r with
  | Some data =>
      match as_response data with
      | Some cr => put_response cr q
      | None => q
      end
  | None => q
  end.

(** [task_handler] *)
Definition task_handler (r : Response) (q : Queues) : Queues :=
  if endswith (url r) "/hsw.js" then inject_hsw q
  else if contains "/getcaptcha/" (url r) then
    if decide (content_type r = Some "application/json"%string)
    then getcaptcha_json r q
    else put_payload (hsw_decoded r) q
  else if contains "/checkcaptcha/" (url r) then checkcaptcha r q
  else q.

(** The handler over a stream of responses, in arrival order. *)
Definition handle_all (rs : list Response) (q : Queues) : Queues :=
  fold_left (λ q r, task_handler r q) rs q.

End Interceptor.

(** ** The session controller ([agent/agent.py], [agent/config.py]) *)

Module Session.
Import Models.

(** [SolveState] *)
Inductive SolveState : Type :=
| INIT
| CHALLENGE_PENDING
| CHALLENGING
| SUBMITTED
| SUCCESS
| FAILURE.

Global Instance SolveState_eq_dec : EqDecision SolveState.
Proof. solve_decision. Defined.

(** The fields of [AgentConfig] the loop reads.  The two timeouts are in
    seconds. *)
Record AgentConfig : Type := mkConfig {
  MAX_CHALLENGE_ATTEMPTS : Z;
  MAX_RESETS : Z;
  EXECUTION_TIMEOUT : Z;
  RESPONSE_TIMEOUT : Z;
  RETRY_ON_FAILURE : bool
}.

(** The [Field(default=...)] values. *)
Definition default_config : AgentConfig := mkConfig 4 1 180 45 true.

(** What [wait_for_challenge] does to the outside, in order:
    [DrainResponses] and [DrainPayloads] are the two
    [while not queue.empty(): queue.get_nowait()] loops. *)
Inductive Effect : Type :=
| DrainResponses
| DrainPayloads
| PageReload
| Sleep (seconds : Z)
| ClickCheckbox
| CacheResponse (cr : CaptchaResponse).

(** The mutable state of [AgentV] that the loop touches:
    [arm.captcha_payload], [core.cr_list] and the log of effects beside
    the four fields it declares. *)
Record Agent : Type := mkAgent {
  state : SolveState;
  reset_count : Z;
  challenge_attempts : Z;
  last_payload : option CaptchaPayload;
  captcha_payload : option CaptchaPayload;
  cr_list : list CaptchaResponse;
  effects : list Effect
}.

Definition set_state (s : SolveState) (a : Agent) : Agent :=
  mkAgent s (reset_count a) (challenge_attempts a) (last_payload a)
          (captcha_payload a) (cr_list a) (effects a).
Definition set_reset_count (n : Z) (a : Agent) : Agent :=
  mkAgent (state a) n (challenge_attempts a) (last_payload a)
          (captcha_payload a) (cr_list a) (effects a).
Definition set_challenge_attempts (n : Z) (a : Agent) : Agent :=
  mkAgent (state a) (reset_count a) n (last_payload a)
          (captcha_payload a) (cr_list a) (effects a).
Definition set_captcha_payload (p : option CaptchaPayload) (a : Agent) : Agent :=
  mkAgent (state a) (reset_count a) (challenge_attempts a) (last_payload a)
          p (cr_list a) (effects a).
Definition emit (es : list Effect) (a : Agent) : Agent :=
  mkAgent (state a) (reset_count a) (challenge_attempts a) (last_payload a)
          (captcha_payload a) (cr_list a) (effects a ++ es).

(** [AgentV.__init__] *)
Definition new_agent : Agent := mkAgent INIT 0 0 None None [] [].

(** How [await asyncio.wait_for(self._solve_captcha_flow(), timeout=120)]
    ends, as the loop observes it.  The flow itself belongs to the pilot
    modules; [stored] is the payload it left in [arm.captcha_payload]
    ([None]: it stored none). *)
Inductive DispatchResult : Type :=
| Returned (result : bool)
| TimedOut
| Raised.

Record Dispatch : Type := mkDispatch {
  stored : option CaptchaPayload;
  result : DispatchResult
}.

(** How [await asyncio.wait([res_task, pay_task], timeout=RESPONSE_TIMEOUT,
    return_when=FIRST_COMPLETED)] ends: the results of the tasks found in
    [done], or an exception inside the [try].  [res_done = None] says that
    [res_task] is not in [done]; [Done None None] is the empty [done] of
    the timeout.  The payload queue carries [Optional[CaptchaPayload]]. *)
Inductive Race : Type :=
| Done (res_done : option CaptchaResponse) (pay_done : option (option CaptchaPayload))
| RaceRaised.

(** The outside events of one pass of the loop body. *)
Record Events : Type := mkEvents {
  dispatch : Dispatch;
  race : Race
}.

(** [core.cache_validated_response(cr)]; writing the file is the effect. *)
Definition cache_validated_response (cr : CaptchaResponse) (a : Agent) : Agent :=
  if is_pass cr
  then emit [CacheResponse cr]
         (mkAgent (state a) (reset_count a) (challenge_attempts a)
                  (last_payload a) (captcha_payload a) (cr_list a ++ [cr])
                  (effects a))
  else a.

Definition store_payload (d : Dispatch) (a : Agent) : Agent :=
  match stored d with
  | Some p => set_captcha_payload (Some p) a
  | None => a
  end.

(** The block [if self.state in [INIT, CHALLENGE_PENDING]].  The boolean
    tells whether the block ended in [continue].  The queues are those of
    the interceptor; the session drains them and otherwise observes them
    through [Dispatch] and [Race].  The state [CHALLENGING] that the flow
    sets is overwritten on every path out of the block. *)
Definition dispatch_block (cfg : AgentConfig) (d : Dispatch) (a : Agent)
    : Agent * bool :=
  let a := emit [DrainResponses] a in
  let a := store_payload d a in
  match result d with
  | Returned true => (set_state SUBMITTED a, false)
  | Returned false =>
      let a := set_reset_count (reset_count a + 1) a in
      if MAX_RESETS cfg <? reset_count a
      then (set_state FAILURE a, true)
      else (set_state INIT (emit [PageReload; Sleep 2; ClickCheckbox] a), true)
  | TimedOut => (set_state INIT (emit [PageReload; Sleep 2] a), true)
  | Raised => (set_state INIT (emit [PageReload; Sleep 2] a), true)
  end.

(** The block [if self.state == SolveState.SUBMITTED]. *)
Definition submitted_block (cfg : AgentConfig) (r : Race) (a : Agent) : Agent :=
  match r with
  | Done None None => set_state FAILURE a
  | Done _ (Some p) =>
      let a := set_reset_count (reset_count a + 1) a in
      if MAX_RESETS cfg <? reset_count a
      then set_state FAILURE a
      else set_state CHALLENGE_PENDING (set_captcha_payload p a)
  | Done (Some cr) None =>
      if is_pass cr
      then set_state SUCCESS (cache_validated_response cr a)
      else if RETRY_ON_FAILURE cfg
           then set_state INIT (emit [Sleep 2] a)
           else set_state FAILURE a
  | RaceRaised => set_state FAILURE a
  end.

Definition terminal (s : SolveState) : bool :=
  match s with
  | SUCCESS | FAILURE => true
  | _ => false
  end.

(** One pass of the body of [while self.state not in [SUCCESS, FAILURE]]. *)
Definition loop_body (cfg : AgentConfig) (ev : Events) (a : Agent) : Agent :=
  let a := set_challenge_attempts (challenge_attempts a + 1) a in
  if MAX_CHALLENGE_ATTEMPTS cfg <? challenge_attempts a
  then set_state FAILURE a
  else
    let '(a, continued) :=
      match state a with
      | INIT | CHALLENGE_PENDING => dispatch_block cfg (dispatch ev) a
      | _ => (a, false)
      end in
    if continued then a
    else
      match state a with
      | SUBMITTED => submitted_block cfg (race ev) a
      | _ => a
      end.

(** The [while] loop; [evs i] are the events of pass [i].  [None]: the fuel
    ran out before a terminal state. *)
Fixpoint solve_loop (fuel : nat) (cfg : AgentConfig) (evs : nat → Events)
    (i : nat) (a : Agent) : option Agent :=
  if terminal (state a) then Some a
  else
    match fuel with
    | O => None
    | S fuel' => solve_loop fuel' cfg evs (S i) (loop_body cfg (evs i) a)
    end.

(** The reset at the head of [wait_for_challenge]. *)
Definition reset_session (a : Agent) : Agent :=
  mkAgent INIT 0 0 None (captcha_payload a) (cr_list a)
          (effects a ++ [DrainResponses; DrainPayloads]).

(** Passes that always suffice: the attempt bound and the pass that trips
    it. *)
Definition enough_fuel (cfg : AgentConfig) : nat :=
  S (Z.to_nat (MAX_CHALLENGE_ATTEMPTS cfg)).

(** [wait_for_challenge]; [found] is the result of the probe
    [debug_find_captcha]. *)
Definition wait_for_challenge (cfg : AgentConfig) (found : bool)
    (evs : nat → Events) (a : Agent) : option (ChallengeSignal * Agent) :=
  let a := reset_session a in
  if negb found then Some (SignalFailure, a)
  else
    match solve_loop (enough_fuel cfg) cfg evs 0 a with
    | Some a' =>
        Some (if decide (state a' = SUCCESS) then SignalSuccess else SignalFailure, a')
    | None => None
    end.

End Session.

(** ** Concrete inputs used by the examples below *)

Module Samples.
Import Clock Quota.

(** A stand-in for the digest: the ledger properties hold for every
    function from credentials to fingerprints. *)
Definition plain_digest (api_key : string) : string := api_key.

(** [hh:mm] (UTC) on day [d] after the epoch. *)
Definition at_time (d hh mm : Z) : Z :=
  d * usec_per_day + timedelta_seconds (hh * 3600 + mm * 60).

Definition flash : string := "gemini-2.5-flash".
Definition key_a : string := "key-a".
Definition key_b : string := "key-b".

(** A ledger created at 07:00 on a fresh cache directory. *)
Definition fresh_ledger : DB := __init__ (at_time 0 7 0) None.

(** Three failures of [key_a] recorded between 07:10 and 07:30. *)
Definition three_failures : DB :=
  mark_failure plain_digest (at_time 0 7 30) key_a flash
    (mark_failure plain_digest (at_time 0 7 20) key_a flash
       (mark_failure plain_digest (at_time 0 7 10) key_a flash fresh_ledger)).

(** A row with a daily mark and a cooldown that ended at 07:05. *)
Definition daily_marked : DB :=
  mkDB {[ _generate_key_id plain_digest key_a flash :=
            mkRow (Some "2026-01-01T07:00:00+00:00"%string) 0 None
                  (Some (at_time 0 7 5)) 0 ]}
       {[ "last_reset"%string := at_time 0 7 0 ]}.

(** A row with a cooldown that ended at 07:05 and no daily mark. *)
Definition cooled_down : DB :=
  mkDB {[ _generate_key_id plain_digest key_a flash :=
            mkRow None 0 None (Some (at_time 0 7 5)) 0 ]}
       {[ "last_reset"%string := at_time 0 7 0 ]}.

(** The priority list and the ledger of the scheduler example: both keys
    cooling down for model B, [key_a] also for model A. *)
Definition abc : list string := ["A"; "B"; "C"]%string.

Definition rotation_ledger : DB :=
  mark_exhausted plain_digest (at_time 0 7 30) key_a "A"
    (mark_exhausted plain_digest (at_time 0 7 30) key_b "B"
       (mark_exhausted plain_digest (at_time 0 7 30) key_a "B" fresh_ledger)).

(** Every key cooling down for every model of [abc]. *)
Definition all_cooling : DB :=
  fold_right (λ '(k, m) db, mark_exhausted plain_digest (at_time 0 7 30) k m db)
    fresh_ledger
    [(key_a, "A"); (key_b, "A"); (key_a, "B"); (key_b, "B");
     (key_a, "C"); (key_b, "C")]%string.

(** Clock readings one second apart from 07:30:05 on. *)
Definition ticking (n : nat) : Z :=
  at_time 0 7 30 + timedelta_seconds (5 + Z.of_nat n).

(** The replies of [rotation_ledger] during its 30-second cooldowns. *)
Definition rotation_replies (api_key model : string) : bool :=
  (String.eqb model "B" && (String.eqb api_key key_a || String.eqb api_key key_b))
  || (String.eqb model "A" && String.eqb api_key key_a).

(** Two [/checkcaptcha/] verdicts, a failing one then a passing one, and
    a JSON [/getcaptcha/] body that carries a pass. *)
Definition verdict_fail : Models.CaptchaResponse := Models.mkResponse false "".
Definition verdict_pass : Models.CaptchaResponse := Models.mkResponse true "P1_token".

Definition check_fail : Interceptor.Response :=
  Interceptor.mkResp "https://api.hcaptcha.com/checkcaptcha/site/key"
    (Some "application/json"%string)
    (Some (Interceptor.mkJson false false (Some verdict_fail) None)) None.

Definition check_pass : Interceptor.Response :=
  Interceptor.mkResp "https://api.hcaptcha.com/checkcaptcha/site/key"
    (Some "application/json"%string)
    (Some (Interceptor.mkJson true false (Some verdict_pass) None)) None.

Definition getcaptcha_pass : Interceptor.Response :=
  Interceptor.mkResp "https://api.hcaptcha.com/getcaptcha/site"
    (Some "application/json"%string)
    (Some (Interceptor.mkJson true false (Some verdict_pass) None)) None.

(** Two passes of the loop, one whose dispatch times out and one whose
    dispatch returns false, and the session that has used its one reset:
    a new session after a pass of the second kind. *)
Definition next_round : Models.CaptchaPayload := Models.mkPayload "round 2".

Definition pass_timed_out : Session.Events :=
  Session.mkEvents (Session.mkDispatch None Session.TimedOut)
                   (Session.Done None None).

Definition pass_failed : Session.Events :=
  Session.mkEvents (Session.mkDispatch None (Session.Returned false))
                   (Session.Done None None).

Definition one_reset_used : Session.Agent :=
  Session.loop_body Session.default_config pass_failed Session.new_agent.

(** Passes whose dispatch succeeds and whose race is won by a new
    payload, by a passing verdict, by a failing one, or by nothing. *)
Definition pass_new_payload : Session.Events :=
  Session.mkEvents (Session.mkDispatch None (Session.Returned true))
                   (Session.Done None (Some (Some next_round))).

Definition pass_verdict (cr : Models.CaptchaResponse) : Session.Events :=
  Session.mkEvents (Session.mkDispatch None (Session.Returned true))
                   (Session.Done (Some cr) None).

Definition pass_silent : Session.Events :=
  Session.mkEvents (Session.mkDispatch None (Session.Returned true))
                   (Session.Done None None).

End Samples.

(** ** The credential and model ring of the providers
    ([tools/internal/providers/gemini.py], [tools/internal/providers/groq.py]) *)

Module Ring.

(** Python's [l[i]] for an [int] index: a negative index counts from the
    end; [None] is [IndexError]. *)
Definition getitem {A : Type} (l : list A) (i : Z) : option A :=
  if 0 <=? i then l !! Z.to_nat i
  else if 0 <=? Z.of_nat (length l) + i
       then l !! Z.to_nat (Z.of_nat (length l) + i)
       else None.

(** The argument [api_key: str | List[str]] (and [model]) of [__init__]. *)
Inductive OneOrMany : Type :=
| One (s : string)
| Many (l : list string).

(** The rotating part of [GeminiProvider].  [_client] holds the key the
    cached [genai.Client] was built with.  [GroqProvider] has the same
    fields but no client: it is this record with [_client = None]
    throughout. *)
Record Provider : Type := mkProvider {
  _api_keys : list string;
  _models : list string;
  _key_index : Z;
  _model_index : Z;
  _client : option string
}.

Definition as_list (x : OneOrMany) : list string :=
  match x with
  | One s => [s]
  | Many l => l
  end.

(** [__init__] *)
Definition new_provider (api_key model : OneOrMany) : Provider :=
  mkProvider (as_list api_key) (as_list model) 0 0 None.

Definition set_key_index (i : Z) (p : Provider) : Provider :=
  mkProvider (_api_keys p) (_models p) i (_model_index p) (_client p).
Definition set_model_index (j : Z) (p : Provider) : Provider :=
  mkProvider (_api_keys p) (_models p) (_key_index p) j (_client p).
Definition set_client (c : option string) (p : Provider) : Provider :=
  mkProvider (_api_keys p) (_models p) (_key_index p) (_model_index p) c.

Definition len (l : list string) : Z := Z.of_nat (length l).

(** The property [model]: [self._models[self._model_index]]. *)
Definition model (p : Provider) : option string :=
  getitem (_models p) (_model_index p).

(** [self._api_keys[self._key_index]] (the property [api_key] of
    [GroqProvider]). *)
Definition api_key (p : Provider) : option string :=
  getitem (_api_keys p) (_key_index p).

(** [rotate_model] *)
Definition rotate_model (p : Provider) : Provider :=
  if 1 <? len (_models p)
  then set_model_index ((_model_index p + 1) `mod` len (_models p)) p
  else p.

(** [rotate_key] of [GeminiProvider]; the one of [GroqProvider] lacks the
    line [self._client = None]. *)
Definition rotate_key (p : Provider) : Provider :=
  if 1 <? len (_api_keys p) then
    let p := set_key_index ((_key_index p + 1) `mod` len (_api_keys p)) p in
    let p := set_client None p in
    if (_key_index p =? 0) && (1 <? len (_models p)) then rotate_model p else p
  else if 1 <? len (_models p) then rotate_model p
  else p.

(** The property [client]: the cached client, or a new one for the current
    key. *)
Definition client (p : Provider) : option (string * Provider) :=
  match _client p with
  | Some c => Some (c, p)
  | None =>
      match api_key p with
      | Some k => Some (k, set_client (Some k) p)
      | None => None
      end
  end.

(** What a caller does with the ring between two requests. *)
Inductive RingOp : Type :=
| RotateKey
| RotateModel
| UseClient.

Definition ring_op (op : RingOp) (p : Provider) : Provider :=
  match op with
  | RotateKey => rotate_key p
  | RotateModel => rotate_model p
  | UseClient =>
      match client p with
      | Some (_, p') => p'
      | None => p
      end
  end.

Definition ring_ops (ops : list RingOp) (p : Provider) : Provider :=
  fold_left (λ q op, ring_op op q) ops p.

(** [n] calls of [rotate_key] in a row. *)
Definition rotate_keys (n : nat) (p : Provider) : Provider :=
  Nat.iter n rotate_key p.

(** Both indices address an entry of their list. *)
Definition in_range (p : Provider) : Prop :=
  0 ≤ _key_index p < len (_api_keys p)
  ∧ 0 ≤ _model_index p < len (_models p).

(** A cached client belongs to the current key. *)
Definition client_current (p : Provider) : Prop :=
  ∀ c, _client p = Some c → api_key p = Some c.

End Ring.

(** ** Views of the quota ledger used by the properties below *)

Module QuotaViews.
Import Clock Quota.

(** The row the ledger holds for a key id, or the row of defaults for a key
    id without one: what [mark_exhausted] and [mark_failure] start from. *)
Definition row_or_default (key_id : string) (db : DB) : QuotaRow :=
  default default_row (quotas db !! key_id).

(** The key id has no daily mark. *)
Definition no_daily_mark (key_id : string) (db : DB) : Prop :=
  truthy_text (exhausted_at (row_or_default key_id db)) = false.

(** The key id has no cooldown that ends after [now_check]. *)
Definition no_live_cooldown (now_check : Z) (key_id : string) (db : DB) : Prop :=
  ∀ u, temp_exhausted_until (row_or_default key_id db) = Some u → u ≤ now_check.

(** The operations that write a record: every one but [is_exhausted]. *)
Definition is_mark (op : Op) : bool :=
  match op with
  | OpIsExhausted _ _ _ _ => false
  | _ => true
  end.

(** The key and model an operation is called with. *)
Definition op_pair (op : Op) : string * string :=
  match op with
  | OpIsExhausted _ _ k m => (k, m)
  | OpMarkExhausted _ k m => (k, m)
  | OpMarkTemporary _ k m _ => (k, m)
  | OpMarkFailure _ k m => (k, m)
  | OpMarkSuccess k m => (k, m)
  end.

Section Ledger.

Variable sha256_hex12 : string → string.

(** One [mark_failure] call per clock reading of [nows], earliest first. *)
Definition fail_repeatedly (nows : list Z) (api_key model : string) (db : DB) : DB :=
  fold_left (λ d t, mark_failure sha256_hex12 t api_key model d) nows db.

End Ledger.
End QuotaViews.

(** ** The scheduler on the quota manager, seen from outside *)

Module RotationViews.
Import Clock Quota Rotation.

(** The cooldown of [row] reads the same at [now_check] as at [t]: it has
    ended at both instants or at neither. *)
Definition quiet_row (t now_check : Z) (row : QuotaRow) : bool :=
  match temp_exhausted_until row with
  | Some until_dt => Bool.eqb (now_check <? until_dt) (t <? until_dt)
  | None => true
  end.

Section OnQuotaManager.

Variable sha256_hex12 : string → string.
Variable clock : nat → Z.

(** What [is_exhausted] answers at the instant [t]. *)
Definition answer_at (t : Z) (db : DB) (api_key model : string) : bool :=
  fst (is_exhausted sha256_hex12 t t api_key model db).

(** During the clock readings [first], ..., [first + count - 1] no daily
    reset falls due and no cooldown of the ledger ends: every reading is
    on the same side of every cooldown as the instant [t]. *)
Definition steady (t : Z) (db : DB) (first count : nat) : Prop :=
  should_reset t db = false
  ∧ Forall (λ i, should_reset (clock i) db = false
                 ∧ map_Forall (λ _ row, quiet_row t (clock i) row = true) (quotas db))
      (seq first count).

(** The clock readings of a selection that asks every model about every
    key: two per [is_exhausted] call. *)
Definition readings (order api_keys : list string) : nat :=
  2 * (length order * length api_keys).

End OnQuotaManager.
End RotationViews.

(** ** Views of a session run *)

Module SessionViews.
Import Models Session.




End SessionViews.

(** ** Views of the interceptor *)

Module InterceptorViews.
Import Models Interceptor.

(** The response reaches the [/getcaptcha/] branch of [task_handler]. *)
Definition is_getcaptcha (r : Response) : bool :=
  negb (endswith (url r) "/hsw.js") && contains "/getcaptcha/" (url r).

Definition is_json (r : Response) : bool :=
  bool_decide (content_type r = Some "application/json"%string).

(** A JSON [/getcaptcha/] body with a truthy ["pass"]: the one response
    that empties the verdict queue. *)
Definition drains (r : Response) : bool :=
  is_getcaptcha r && is_json r
  && match json r with
     | Some data => data_pass data
     | None => false
     end.

(** A [/getcaptcha/] response whose processing raises or yields nothing:
    an unreadable JSON body, a ["pass"] or ["request_config"] body that
    fails validation, or a binary body that cannot be decoded. *)
Definition broken_getcaptcha (r : Response) : bool :=
  is_getcaptcha r
  && if is_json r then
       match json r with
       | None => true
       | Some data =>
           if data_pass data then negb (bool_decide (is_Some (as_response data)))
           else data_request_config data
                && negb (bool_decide (is_Some (as_payload data)))
       end
     else negb (bool_decide (is_Some (hsw_decoded r))).

End InterceptorViews.

(** ** Further sample inputs *)

Module Examples.
Import Clock Quota Samples.

(** A provider with two keys and three models, as [__init__] leaves it. *)
Definition two_by_three : Ring.Provider :=
  Ring.new_provider (Ring.Many ["key-a"; "key-b"]%string)
                    (Ring.Many ["m0"; "m1"; "m2"]%string).

(** [key_a] after one [mark_exhausted] at 07:30 on the fresh ledger. *)
Definition exhausted_once : DB :=
  mark_exhausted plain_digest (at_time 0 7 30) key_a flash fresh_ledger.

(** [hh:mm:ss] (UTC) on day [d] after the epoch. *)
Definition at_second (d hh mm ss : Z) : Z := at_time d hh mm + timedelta_seconds ss.

(** A JSON [/getcaptcha/] body with a truthy ["pass"] that fails the
    validation of [CaptchaResponse]. *)
Definition getcaptcha_bad_pass : Interceptor.Response :=
  Interceptor.mkResp "https://api.hcaptcha.com/getcaptcha/site"
    (Some "application/json"%string)
    (Some (Interceptor.mkJson true false None None)) None.

End Examples.

(** * Properties *)

(** ** Quota ledger *)

Module QuotaFacts.
Import Clock Quota.

Section Ledger.

Variable h : string → string.

Abbreviation key_of := (_generate_key_id h).

(** *** The upsert *)

Lemma upsert_lookup kid fresh update db :
  quotas (upsert kid fresh update db) !! kid
  = Some (match quotas db !! kid with Some r => update r | None => fresh end).
Proof. unfold upsert, with_quotas; simpl. apply lookup_insert_eq. Qed.

Lemma upsert_lookup_ne kid kid' fresh update db :
  kid' ≠ kid →
  quotas (upsert kid fresh update db) !! kid' = quotas db !! kid'.
Proof. intros Hne. unfold upsert, with_quotas; simpl. by apply lookup_insert_ne. Qed.

Lemma upsert_metadata kid fresh update db :
  metadata (upsert kid fresh update db) = metadata db.
Proof. reflexivity. Qed.

Lemma upsert_wf kid fresh update db :
  wf_row fresh → (∀ r, wf_row r → wf_row (update r)) →
  wf_db db → wf_db (upsert kid fresh update db).
Proof.
  intros Hf Hu Hdb kid' r.
  destruct (decide (kid' = kid)) as [->|Hne].
  - rewrite upsert_lookup. intros [= <-].
    destruct (quotas db !! kid) as [r0|] eqn:E; [apply Hu; eauto | exact Hf].
  - rewrite upsert_lookup_ne by done. apply Hdb.
Qed.

(** *** The invariant of the data model is kept by every operation *)

Lemma wf_empty : wf_db empty_db.
Proof. intros kid r. simpl. by rewrite lookup_empty. Qed.

Lemma wf_check_reset now db : wf_db db → wf_db (_check_reset now db).
Proof.
  intros Hdb. unfold _check_reset. destruct (should_reset now db); [|done].
  intros kid r. simpl. by rewrite lookup_empty.
Qed.

Lemma wf_init now store :
  (∀ db, store = Some db → wf_db db) → wf_db (__init__ now store).
Proof.
  intros Hs. apply wf_check_reset. destruct store as [db|]; simpl; [eauto | apply wf_empty].
Qed.

Lemma current_backoff_nonneg kid db : wf_db db → 0 ≤ current_backoff kid db.
Proof.
  intros Hdb. unfold current_backoff.
  destruct (quotas db !! kid) as [r|] eqn:E; [apply (Hdb _ _ E) | lia].
Qed.

Lemma wf_mark_exhausted now k m db : wf_db db → wf_db (mark_exhausted h now k m db).
Proof.
  intros Hdb. pose proof (current_backoff_nonneg (key_of k m) db Hdb).
  apply upsert_wf; [| |done]; unfold wf_row; simpl; [lia|]. intros r [? ?]. lia.
Qed.

Lemma wf_mark_temporary now k m s db :
  wf_db db → wf_db (mark_temporary_exhaustion h now k m s db).
Proof.
  intros Hdb. apply upsert_wf; [| |done]; unfold wf_row; simpl; [lia|]. intros r [? ?]. lia.
Qed.

Lemma wf_mark_failure now k m db : wf_db db → wf_db (mark_failure h now k m db).
Proof.
  intros Hdb. apply upsert_wf; [| |done]; unfold wf_row; simpl; [lia|]. intros r [? ?]. lia.
Qed.

Lemma wf_mark_success k m db : wf_db db → wf_db (mark_success h k m db).
Proof.
  intros Hdb kid r. unfold mark_success, with_quotas; simpl.
  rewrite lookup_alter. case_decide as Hk.
  - subst kid. destruct (quotas db !! key_of k m) as [r0|] eqn:E; simpl; [|done].
    intros [= <-]. pose proof (Hdb _ _ E) as [? ?]. unfold wf_row; simpl. lia.
  - apply Hdb.
Qed.

Lemma wf_is_exhausted t1 t2 k m db :
  wf_db db → wf_db (snd (is_exhausted h t1 t2 k m db)).
Proof.
  intros Hdb. pose proof (wf_check_reset t1 db Hdb) as H1.
  unfold is_exhausted; cbv zeta.
  destruct (quotas (_check_reset t1 db) !! key_of k m) as [row|] eqn:E;
    [|exact H1].
  destruct (truthy_text (exhausted_at row)); [exact H1|].
  destruct (temp_exhausted_until row) as [u|]; [|exact H1].
  destruct (t2 <? u); [exact H1|]. simpl.
  intros kid r. unfold with_quotas; simpl.
  rewrite lookup_insert. case_decide as Hk.
  - intros [= <-]. apply (H1 _ _ E).
  - apply H1.
Qed.

Lemma wf_run_op op db : wf_db db → wf_db (run_op h op db).
Proof.
  destruct op; simpl; eauto using wf_is_exhausted, wf_mark_exhausted,
    wf_mark_temporary, wf_mark_failure, wf_mark_success.
Qed.

Lemma wf_run_ops ops db : wf_db db → wf_db (run_ops h ops db).
Proof.
  revert db. induction ops as [|op ops IH]; intros db Hdb; simpl; [done|].
  apply IH. by apply wf_run_op.
Qed.

(** *** [mark_success] *)

(** C6.  For every key and every ledger, after [mark_success] the key's
    failure counter is 0, its last failure and its cooldown are cleared
    and its backoff counter is [max 0 (before - 2)]; a key without a row
    keeps having none (its counters read 0 before and after), the daily
    mark, the other keys and the metadata are untouched. *)
Theorem mark_success_gradual_recovery k m db :
  let kid := key_of k m in
  let db' := mark_success h k m db in
  current_failures kid db' = 0
  ∧ current_backoff kid db' = Z.max 0 (current_backoff kid db - 2)
  ∧ (∀ row, quotas db !! kid = Some row →
       ∃ row', quotas db' !! kid = Some row'
               ∧ failure_count row' = 0
               ∧ last_failure row' = None
               ∧ temp_exhausted_until row' = None
               ∧ backoff_count row' = Z.max 0 (backoff_count row - 2)
               ∧ exhausted_at row' = exhausted_at row)
  ∧ (quotas db !! kid = None → quotas db' !! kid = None)
  ∧ (∀ kid', kid' ≠ kid → quotas db' !! kid' = quotas db !! kid')
  ∧ metadata db' = metadata db.
Proof.
  intros kid db'.
  assert (Hl : quotas db' !! kid = success_update <$> quotas db !! kid).
  { subst db'. unfold mark_success, with_quotas; simpl. by rewrite lookup_alter_eq. }
  repeat split.
  - unfold current_failures. rewrite Hl. by destruct (quotas db !! kid).
  - unfold current_backoff. rewrite Hl. destruct (quotas db !! kid); simpl; lia.
  - intros row Hrow. rewrite Hl, Hrow. by eexists.
  - intros Hnone. by rewrite Hl, Hnone.
  - intros kid' Hne. subst db'. unfold mark_success, with_quotas; simpl.
    by apply lookup_alter_ne.
Qed.

(** *** [mark_exhausted] *)

Lemma mark_exhausted_lookup now k m db :
  quotas (mark_exhausted h now k m db) !! key_of k m
  = Some (set_backoff (current_backoff (key_of k m) db + 1)
            (set_temp
               (Some (now + timedelta_seconds
                              (backoff_seconds (current_backoff (key_of k m) db + 1))))
               (default default_row (quotas db !! key_of k m)))).
Proof.
  unfold mark_exhausted; cbv zeta. rewrite upsert_lookup.
  by destruct (quotas db !! key_of k m).
Qed.

Lemma current_backoff_mark_exhausted now k m db :
  current_backoff (key_of k m) (mark_exhausted h now k m db)
  = current_backoff (key_of k m) db + 1.
Proof.
  unfold current_backoff at 1. by rewrite mark_exhausted_lookup.
Qed.

Lemma armed_cooldown_mark_exhausted now k m db :
  armed_cooldown now (key_of k m) (mark_exhausted h now k m db)
  = Some (backoff_seconds (current_backoff (key_of k m) db + 1)).
Proof.
  unfold armed_cooldown. rewrite mark_exhausted_lookup. simpl.
  f_equal. unfold timedelta_seconds.
  replace (now + _ * usec_per_second - now)
    with (backoff_seconds (current_backoff (key_of k m) db + 1) * usec_per_second)
    by lia.
  apply Z.div_mul. unfold usec_per_second. lia.
Qed.

Lemma exhaust_repeatedly_schedule nows k m db :
  fst (exhaust_repeatedly h nows k m db)
  = backoff_schedule (current_backoff (key_of k m) db) (length nows).
Proof.
  revert db. induction nows as [|t rest IH]; intros db; simpl; [done|].
  specialize (IH (mark_exhausted h t k m db)).
  destruct (exhaust_repeatedly h rest k m (mark_exhausted h t k m db)) as [cs db'].
  simpl in *. rewrite IH, armed_cooldown_mark_exhausted, current_backoff_mark_exhausted.
  unfold backoff_seconds.
  by replace (current_backoff (key_of k m) db + 1 - 1)
    with (current_backoff (key_of k m) db) by lia.
Qed.

Lemma backoff_ceiling c : 5 ≤ c → Z.min (30 * 2 ^ c) 960 = 960.
Proof.
  intros Hc. apply Z.min_r.
  replace c with (5 + (c - 5)) by lia.
  rewrite Z.pow_add_r by lia.
  assert (1 ≤ 2 ^ (c - 5)) by (apply Z.pow_le_mono_r with (b := 0); lia).
  change (2 ^ 5) with 32. nia.
Qed.

(** C5.  On a ledger that satisfies the data-model invariant (which every
    operation keeps), each [mark_exhausted] call increments the key's
    backoff counter and sets its cooldown end to
    [now + min(30 * 2^(count - 1), 960)] seconds, [count] being the
    incremented counter; successive calls on a key that starts without
    backoff history arm 30, 60, 120, 240, 480, 960, 960, ... seconds, and
    from the sixth call on the cooldown stays at the ceiling of 960
    seconds. *)
Theorem mark_exhausted_exponential_backoff now k m db :
  let kid := key_of k m in
  let db' := mark_exhausted h now k m db in
  wf_db db →
  (∃ row', quotas db' !! kid = Some row'
           ∧ backoff_count row' = current_backoff kid db + 1
           ∧ 1 ≤ backoff_count row'
           ∧ temp_exhausted_until row'
             = Some (now + timedelta_seconds
                             (Z.min (30 * 2 ^ (backoff_count row' - 1)) 960)))
  ∧ wf_db db'
  ∧ (∀ nows, fst (exhaust_repeatedly h nows k m db)
             = backoff_schedule (current_backoff kid db) (length nows))
  ∧ (∀ t1 t2 t3 t4 t5 t6 t7, current_backoff kid db = 0 →
       fst (exhaust_repeatedly h [t1; t2; t3; t4; t5; t6; t7] k m db)
       = [Some 30; Some 60; Some 120; Some 240; Some 480; Some 960; Some 960])
  ∧ (∀ c, 5 ≤ c → Z.min (30 * 2 ^ c) 960 = 960).
Proof.
  intros kid db' Hwf. split; [|split; [|split; [|split]]].
  - eexists. split; [apply mark_exhausted_lookup|]. simpl.
    pose proof (current_backoff_nonneg kid db Hwf).
    split; [done|]. split; [fold kid; lia | done].
  - by apply wf_mark_exhausted.
  - intros nows. apply exhaust_repeatedly_schedule.
  - intros t1 t2 t3 t4 t5 t6 t7 H0.
    rewrite exhaust_repeatedly_schedule. fold kid. rewrite H0. reflexivity.
  - apply backoff_ceiling.
Qed.

(** *** [mark_failure] *)

Lemma mark_failure_lookup now k m db :
  quotas (mark_failure h now k m db) !! key_of k m
  = Some (set_failure (current_failures (key_of k m) db + 1) (Some now)
            (default default_row (quotas db !! key_of k m))).
Proof.
  unfold mark_failure; cbv zeta. rewrite upsert_lookup. unfold current_failures.
  by destruct (quotas db !! key_of k m).
Qed.

Lemma current_failures_mark_failure now k m db :
  current_failures (key_of k m) (mark_failure h now k m db)
  = current_failures (key_of k m) db + 1.
Proof. unfold current_failures at 1. by rewrite mark_failure_lookup. Qed.

Lemma current_failures_nonneg kid db : wf_db db → 0 ≤ current_failures kid db.
Proof.
  intros Hdb. unfold current_failures.
  destruct (quotas db !! kid) as [r|] eqn:E; [apply (Hdb _ _ E) | lia].
Qed.

(** *** [is_exhausted] *)

Lemma unstable_true r : unstable r = true ↔ 3 ≤ failure_count r.
Proof.
  unfold unstable. rewrite andb_true_iff, negb_true_iff, Z.eqb_neq, Z.leb_le. lia.
Qed.

Lemma is_exhausted_iff t1 t2 k m db :
  fst (is_exhausted h t1 t2 k m db) = true
  ↔ ∃ row, quotas (_check_reset t1 db) !! key_of k m = Some row
           ∧ disqualified t2 row.
Proof.
  unfold is_exhausted, disqualified; cbv zeta.
  destruct (quotas (_check_reset t1 db) !! key_of k m) as [row|] eqn:E.
  2:{ simpl. split; [done | by intros (? & ? & _)]. }
  destruct (truthy_text (exhausted_at row)) eqn:Ed.
  { simpl. split; [eauto | done]. }
  destruct (temp_exhausted_until row) as [u|] eqn:Et.
  - destruct (t2 <? u) eqn:Hlt; simpl.
    + apply Z.ltb_lt in Hlt. split; [|done]. intros _. eexists; split; [done|]. eauto.
    + apply Z.ltb_ge in Hlt. rewrite unstable_true. split.
      * intros ?. eexists; split; [done|]. eauto.
      * intros (r & [= <-] & [?|[(u' & Hu' & ?)|?]]); [congruence| |done].
        rewrite Et in Hu'. inversion Hu'; subst. lia.
  - simpl. rewrite unstable_true. split.
    + intros ?. eexists; split; [done|]. eauto.
    + intros (r & [= <-] & [?|[(u' & Hu' & ?)|?]]); [congruence| |done].
      by rewrite Et in Hu'.
Qed.

Lemma check_reset_not_due now db :
  should_reset now db = false → _check_reset now db = db.
Proof. intros Hs. unfold _check_reset. by rewrite Hs. Qed.

Lemma is_exhausted_ledger t1 t2 k m db :
  metadata (snd (is_exhausted h t1 t2 k m db)) = metadata (_check_reset t1 db)
  ∧ ∀ kid', kid' ≠ key_of k m →
      quotas (snd (is_exhausted h t1 t2 k m db)) !! kid'
      = quotas (_check_reset t1 db) !! kid'.
Proof.
  unfold is_exhausted; cbv zeta.
  destruct (quotas (_check_reset t1 db) !! key_of k m) as [row|]; [|done].
  destruct (truthy_text (exhausted_at row)); [done|].
  destruct (temp_exhausted_until row) as [u|]; [|done].
  destruct (t2 <? u); [done|]. simpl. split; [done|].
  intros kid' Hne. by apply lookup_insert_ne.
Qed.

Lemma is_exhausted_clears_expired t1 t2 k m db row u :
  quotas (_check_reset t1 db) !! key_of k m = Some row →
  truthy_text (exhausted_at row) = false →
  temp_exhausted_until row = Some u →
  u ≤ t2 →
  quotas (snd (is_exhausted h t1 t2 k m db)) !! key_of k m
  = Some (set_temp None row).
Proof.
  intros Hrow Hd Ht Hle. unfold is_exhausted; cbv zeta.
  rewrite Hrow, Hd, Ht. apply Z.ltb_ge in Hle. rewrite Hle. simpl.
  apply lookup_insert_eq.
Qed.

Lemma three_failures_unstable t1 t2 ta tb tc k m db :
  wf_db db →
  should_reset t1 db = false →
  fst (is_exhausted h t1 t2 k m
         (mark_failure h tc k m (mark_failure h tb k m (mark_failure h ta k m db))))
  = true.
Proof.
  intros Hwf Hs. apply is_exhausted_iff.
  rewrite check_reset_not_due by exact Hs.
  rewrite mark_failure_lookup. eexists; split; [done|].
  right; right. simpl. rewrite !current_failures_mark_failure.
  pose proof (current_failures_nonneg (key_of k m) db Hwf). lia.
Qed.

(** C4, as the code has it.  [is_exhausted] first runs the daily-reset
    check and then answers true exactly when the key has a row in the
    ledger left by that check and the row carries a daily mark, or a
    cooldown ending after the check time, or at least three failures.
    Beyond the reset, the only change it makes is to clear an expired
    cooldown, which it does when the row has no daily mark.  After three
    [mark_failure] calls on a key, [is_exhausted] answers true whenever
    its own reset check is not due, whatever the key's cooldown. *)
Theorem is_exhausted_after_reset_check t1 t2 k m db :
  let kid := key_of k m in
  let db1 := _check_reset t1 db in
  let out := is_exhausted h t1 t2 k m db in
  (fst out = true ↔ ∃ row, quotas db1 !! kid = Some row ∧ disqualified t2 row)
  ∧ metadata (snd out) = metadata db1
  ∧ (∀ kid', kid' ≠ kid → quotas (snd out) !! kid' = quotas db1 !! kid')
  ∧ (∀ row u, quotas db1 !! kid = Some row →
       truthy_text (exhausted_at row) = false →
       temp_exhausted_until row = Some u → u ≤ t2 →
       quotas (snd out) !! kid = Some (set_temp None row))
  ∧ (∀ ta tb tc, wf_db db → should_reset t1 db = false →
       fst (is_exhausted h t1 t2 k m
              (mark_failure h tc k m
                 (mark_failure h tb k m (mark_failure h ta k m db))))
       = true).
Proof.
  intros kid db1 out. split; [apply is_exhausted_iff|].
  split; [apply is_exhausted_ledger|].
  split; [apply is_exhausted_ledger|].
  split.
  - intros row u. apply is_exhausted_clears_expired.
  - intros ta tb tc. apply three_failures_unstable.
Qed.

(** *** The daily reset *)

Lemma check_reset_due now db :
  should_reset now db = true →
  quotas (_check_reset now db) = ∅
  ∧ metadata (_check_reset now db) !! "last_reset"%string = Some now.
Proof.
  intros Hs. unfold _check_reset. rewrite Hs. simpl.
  split; [done | apply lookup_insert_eq].
Qed.

Lemma should_reset_boundary now db last :
  metadata db !! "last_reset"%string = Some last →
  reset_time_today now ≤ now → last < reset_time_today now →
  should_reset now db = true.
Proof.
  intros Hm H1 H2. unfold should_reset. rewrite Hm.
  apply andb_true_iff. split; [by apply Z.leb_le | by apply Z.ltb_lt].
Qed.

Lemma reset_time_same_day t t' : day_of t' = day_of t → reset_time_today t' = reset_time_today t.
Proof. unfold reset_time_today, midnight, day_of. by intros ->. Qed.

(** After a reset made at or past the boundary, no check of the same day
    resets again, whatever was recorded in between. *)
Lemma no_second_reset now now2 db' :
  reset_time_today now ≤ now →
  day_of now2 = day_of now →
  metadata db' !! "last_reset"%string = Some now →
  should_reset now2 db' = false.
Proof.
  intros Hb Hday Hm. unfold should_reset. rewrite Hm.
  rewrite (reset_time_same_day now now2 Hday).
  apply andb_false_iff. right. apply Z.ltb_ge. exact Hb.
Qed.

Lemma run_op_keeps_last_reset op db :
  is_Some (metadata db !! "last_reset"%string) →
  is_Some (metadata (run_op h op db) !! "last_reset"%string).
Proof.
  intros Hm. destruct op as [t1 t2 k m| | | |]; simpl; try done.
  rewrite (proj1 (is_exhausted_ledger t1 t2 k m db)).
  unfold _check_reset. destruct (should_reset t1 db); [|done].
  simpl. rewrite lookup_insert_eq. by eexists.
Qed.

Lemma run_ops_keep_last_reset ops db :
  is_Some (metadata db !! "last_reset"%string) →
  is_Some (metadata (run_ops h ops db) !! "last_reset"%string).
Proof.
  revert db. induction ops as [|op ops IH]; intros db Hm; simpl; [done|].
  apply IH. by apply run_op_keeps_last_reset.
Qed.

Lemma init_has_last_reset now store :
  is_Some (metadata (__init__ now store) !! "last_reset"%string).
Proof.
  unfold __init__, _check_reset, should_reset.
  destruct (metadata (_init_db store) !! "last_reset"%string) as [last|] eqn:E.
  - destruct (_ && _); simpl; [rewrite lookup_insert_eq; by eexists|].
    rewrite E. by eexists.
  - simpl. rewrite lookup_insert_eq. by eexists.
Qed.

Lemma is_exhausted_when_reset_due t1 t2 k m db :
  should_reset t1 db = true →
  is_exhausted h t1 t2 k m db = (false, _check_reset t1 db).
Proof.
  intros Hs. unfold is_exhausted; cbv zeta.
  rewrite (proj1 (check_reset_due t1 db Hs)). by rewrite lookup_empty.
Qed.

(** C7, as the code has it.  The reset check runs on construction and at
    the head of every [is_exhausted] call.  When the time of the check is
    at or past today's boundary (08:00 UTC) and the recorded last reset
    is before that boundary, every quota record is deleted and the last
    reset becomes the time of the check; a later check of the same day
    resets nothing, whatever was recorded in between. *)
Theorem daily_reset_on_checked_access now db last :
  metadata db !! "last_reset"%string = Some last →
  reset_time_today now ≤ now →
  last < reset_time_today now →
  let db' := _check_reset now db in
  quotas db' = ∅
  ∧ metadata db' !! "last_reset"%string = Some now
  ∧ __init__ now (Some db) = db'
  ∧ (∀ t2 k m, is_exhausted h now t2 k m db = (false, db'))
  ∧ (∀ now2 db2, day_of now2 = day_of now →
       metadata db2 !! "last_reset"%string = Some now →
       _check_reset now2 db2 = db2
       ∧ ∀ t2 k m, snd (is_exhausted h now2 t2 k m db') = db').
Proof.
  intros Hm Hb Hlast db'.
  pose proof (should_reset_boundary now db last Hm Hb Hlast) as Hs.
  destruct (check_reset_due now db Hs) as [Hq Hl].
  split; [done|]. split; [done|]. split; [done|].
  split; [intros; by apply is_exhausted_when_reset_due|].
  intros now2 db2 Hday Hm2. split.
  - apply check_reset_not_due. by apply (no_second_reset now).
  - intros t2 k m. unfold is_exhausted; cbv zeta.
    rewrite (check_reset_not_due now2 db') by by apply (no_second_reset now).
    subst db'. by rewrite Hq, lookup_empty.
Qed.

(** C10.  On a ledger whose metadata has no ['last_reset'] entry the
    reset check deletes every quota record and records the time of the
    check as the last reset, wherever that time lies relative to the
    daily boundary.  Construction runs the check, and so does
    [is_exhausted]; a ledger built on an empty cache directory is the
    empty table with the construction time as last reset, and once
    constructed no operation removes the entry. *)
Theorem first_check_always_resets now db :
  metadata db !! "last_reset"%string = None →
  let db' := _check_reset now db in
  quotas db' = ∅
  ∧ metadata db' !! "last_reset"%string = Some now
  ∧ __init__ now (Some db) = db'
  ∧ (∀ t2 k m, is_exhausted h now t2 k m db = (false, db'))
  ∧ __init__ now None = mkDB ∅ {[ "last_reset"%string := now ]}
  ∧ (∀ t0 store ops,
       is_Some (metadata (run_ops h ops (__init__ t0 store)) !! "last_reset"%string)).
Proof.
  intros Hm db'.
  assert (Hs : should_reset now db = true) by (unfold should_reset; by rewrite Hm).
  destruct (check_reset_due now db Hs) as [Hq Hl].
  split; [done|]. split; [done|]. split; [done|].
  split; [intros; by apply is_exhausted_when_reset_due|].
  split; [done|].
  intros t0 store ops. apply run_ops_keep_last_reset, init_has_last_reset.
Qed.

End Ledger.
End QuotaFacts.

(** Concrete runs of the ledger. *)
Module QuotaRuns.
Import Clock Quota Samples.

Lemma wf_fresh_ledger : wf_db fresh_ledger.
Proof. apply QuotaFacts.wf_init. by intros db. Qed.

(** The instance of C4 at a ledger created at 07:00 and asked at 07:40:
    three failures make the key exhausted, and a cooldown that ended at
    07:05 on a row without daily mark is cleared. *)
Lemma is_exhausted_after_reset_check_witness :
  fst (is_exhausted plain_digest (at_time 0 7 40) (at_time 0 7 40) key_a flash
         three_failures) = true
  ∧ quotas (snd (is_exhausted plain_digest (at_time 0 7 40) (at_time 0 7 40)
                   key_a flash cooled_down))
      !! _generate_key_id plain_digest key_a flash
    = Some (mkRow None 0 None None 0).
Proof.
  split.
  - apply (proj2 (proj2 (proj2 (proj2
             (QuotaFacts.is_exhausted_after_reset_check plain_digest
                (at_time 0 7 40) (at_time 0 7 40) key_a flash fresh_ledger))))).
    + exact wf_fresh_ledger.
    + vm_compute. reflexivity.
  - apply (proj1 (proj2 (proj2 (proj2
             (QuotaFacts.is_exhausted_after_reset_check plain_digest
                (at_time 0 7 40) (at_time 0 7 40) key_a flash cooled_down))))
             (mkRow None 0 None (Some (at_time 0 7 5)) 0) (at_time 0 7 5)).
    + vm_compute. reflexivity.
    + reflexivity.
    + reflexivity.
    + vm_compute. discriminate.
Defined.

(** C4 as stated fails in two places.  Three failures recorded before
    08:00 are wiped by the reset check of an [is_exhausted] call made at
    08:00, which then answers false; and on a row with a daily mark the
    call returns before it reaches the expired cooldown, which stays. *)
Lemma three_failures_lost_and_window_kept :
  (current_failures (_generate_key_id plain_digest key_a flash) three_failures = 3
   ∧ fst (is_exhausted plain_digest (at_time 0 8 0) (at_time 0 8 0) key_a flash
            three_failures) = false)
  ∧ (fst (is_exhausted plain_digest (at_time 0 7 30) (at_time 0 7 30) key_a flash
            daily_marked) = true
     ∧ (temp_exhausted_until
          <$> quotas (snd (is_exhausted plain_digest (at_time 0 7 30) (at_time 0 7 30)
                             key_a flash daily_marked))
              !! _generate_key_id plain_digest key_a flash)
       = Some (Some (at_time 0 7 5))
     ∧ at_time 0 7 5 < at_time 0 7 30).
Proof. vm_compute. repeat split; reflexivity. Qed.

(** The instance of C5 on a fresh key. *)
Lemma mark_exhausted_exponential_backoff_witness :
  current_backoff (_generate_key_id plain_digest key_a flash) fresh_ledger = 0
  ∧ fst (exhaust_repeatedly plain_digest [1; 2; 3; 4; 5; 6; 7] key_a flash fresh_ledger)
    = [Some 30; Some 60; Some 120; Some 240; Some 480; Some 960; Some 960]
  ∧ Z.min (30 * 2 ^ 9) 960 = 960.
Proof.
  pose proof (QuotaFacts.mark_exhausted_exponential_backoff plain_digest 0
                key_a flash fresh_ledger wf_fresh_ledger)
    as (_ & _ & _ & Hseq & Hcap).
  split; [reflexivity|]. split.
  - apply Hseq. reflexivity.
  - apply Hcap. lia.
Defined.

(** The instance of C6 on a row with history. *)
Lemma mark_success_gradual_recovery_witness :
  ∃ row', quotas (mark_success plain_digest key_a flash three_failures)
            !! _generate_key_id plain_digest key_a flash = Some row'
          ∧ failure_count row' = 0
          ∧ last_failure row' = None
          ∧ temp_exhausted_until row' = None
          ∧ backoff_count row' = Z.max 0 (0 - 2)
          ∧ exhausted_at row' = None.
Proof.
  pose proof (QuotaFacts.mark_success_gradual_recovery plain_digest key_a flash
                three_failures) as (_ & _ & Hrow & _).
  apply (Hrow (mkRow None 3 (Some (at_time 0 7 30)) None 0)).
  vm_compute. reflexivity.
Defined.

(** C7 as stated fails on the [mark_*] operations: at 09:00, with the last
    reset at 07:00, the reset is due, yet [mark_failure] keeps the stale
    record (it counts on from it) and leaves the last reset where it
    was. *)
Lemma mark_failure_skips_daily_reset :
  let kid := _generate_key_id plain_digest key_a flash in
  let db := mark_failure plain_digest (at_time 0 7 10) key_a flash fresh_ledger in
  let db' := mark_failure plain_digest (at_time 0 9 0) key_a flash db in
  metadata db !! "last_reset"%string = Some (at_time 0 7 0)
  ∧ reset_time_today (at_time 0 9 0) ≤ at_time 0 9 0
  ∧ at_time 0 7 0 < reset_time_today (at_time 0 9 0)
  ∧ quotas db' ≠ ∅
  ∧ current_failures kid db' = 2
  ∧ metadata db' !! "last_reset"%string ≠ Some (at_time 0 9 0).
Proof.
  vm_compute. repeat split; try reflexivity; try discriminate.
Qed.

(** The instance of C7: reset at 09:00, second check at 17:30. *)
Lemma daily_reset_on_checked_access_witness :
  let db := mark_failure plain_digest (at_time 0 7 10) key_a flash fresh_ledger in
  let db' := _check_reset (at_time 0 9 0) db in
  quotas db' = ∅
  ∧ metadata db' !! "last_reset"%string = Some (at_time 0 9 0)
  ∧ _check_reset (at_time 0 17 30) db' = db'.
Proof.
  intros db db'.
  pose proof (QuotaFacts.daily_reset_on_checked_access plain_digest
                (at_time 0 9 0) db (at_time 0 7 0)) as H.
  destruct H as (Hq & Hl & _ & _ & Hsecond).
  - vm_compute. reflexivity.
  - vm_compute. discriminate.
  - vm_compute. reflexivity.
  - split; [exact Hq|]. split; [exact Hl|].
    apply (Hsecond (at_time 0 17 30) db'); [vm_compute; reflexivity | exact Hl].
Defined.

(** The instance of C10: a ledger file without the entry, checked at
    03:00, well before the boundary. *)
Lemma first_check_always_resets_witness :
  let db := mkDB (quotas three_failures) ∅ in
  quotas (_check_reset (at_time 0 3 0) db) = ∅
  ∧ metadata (_check_reset (at_time 0 3 0) db) !! "last_reset"%string
    = Some (at_time 0 3 0).
Proof.
  intros db.
  pose proof (QuotaFacts.first_check_always_resets plain_digest (at_time 0 3 0) db)
    as H.
  destruct H as (Hq & Hl & _); [reflexivity|].
  split; [exact Hq | exact Hl].
Defined.

End QuotaRuns.

(** ** Rotation scheduler *)

Module RotationFacts.
Import Rotation.

(** *** The priority order *)

Lemma prioritise_preferred p priority :
  p ≠ ""%string →
  prioritise (Some p) priority = p :: filter (λ m, m ≠ p) priority.
Proof.
  intros Hp. unfold prioritise.
  destruct (String.eqb p "") eqn:E; [|done]. by apply String.eqb_eq in E.
Qed.

(** *** The specification's selection *)

Lemma keep_available_pred exhausted m keys :
  keep_available keys (map (λ k, exhausted k m) keys)
  = not_exhausted_keys exhausted m keys.
Proof.
  unfold not_exhausted_keys.
  induction keys as [|k keys IH]; simpl; [done|].
  destruct (exhausted k m); simpl; by rewrite IH.
Qed.

Lemma prioritise_nonempty preferred priority :
  priority ≠ [] → prioritise preferred priority ≠ [].
Proof.
  intros Hne. unfold prioritise. destruct preferred as [p|]; [|done].
  by destruct (String.eqb p "").
Qed.

Lemma selection_of_no_error order keys table :
  order ≠ [] → selection_of order keys table ≠ IndexError.
Proof.
  intros Hne. unfold selection_of, fail_open.
  destruct (first_fit_rows order keys table) as [[m ks]|]; [done|].
  destruct keys; [done|]. by destruct order.
Qed.

Lemma first_fit_rows_table_of exhausted order keys :
  first_fit_rows order keys (table_of exhausted order keys)
  = first_fit exhausted order keys.
Proof.
  induction order as [|m order IH]; simpl; [done|].
  rewrite keep_available_pred.
  destruct (not_exhausted_keys exhausted m keys); [exact IH | done].
Qed.

Lemma selection_of_table_of exhausted order keys :
  selection_of order keys (table_of exhausted order keys)
  = selectCandidate_spec exhausted order keys.
Proof.
  unfold selection_of, selectCandidate_spec. by rewrite first_fit_rows_table_of.
Qed.

(** [first_fit] returns the earliest model that has an available key. *)
Lemma first_fit_Some exhausted order keys m ks :
  first_fit exhausted order keys = Some (m, ks)
  ↔ ∃ before after,
      order = before ++ m :: after
      ∧ Forall (λ m', not_exhausted_keys exhausted m' keys = []) before
      ∧ ks = not_exhausted_keys exhausted m keys
      ∧ ks ≠ []
      ∧ first_fit exhausted order keys = Some (m, ks).
Proof.
  split; [|by intros (_ & _ & _ & _ & _ & _ & H)].
  intros Hfit. revert Hfit.
  induction order as [|m0 order IH]; cbn [first_fit]; [done|].
  destruct (not_exhausted_keys exhausted m0 keys) as [|k ks0] eqn:E.
  - intros Hfit. destruct (IH Hfit) as (before & after & -> & Hb & Hks & Hne & _).
    exists (m0 :: before), after.
    split; [done|]. split; [by constructor|]. split; [done|]. split; [done|].
    exact Hfit.
  - intros [= <- <-]. exists [], order.
    by repeat (split; [done || constructor|]).
Qed.

Lemma first_fit_None exhausted order keys :
  first_fit exhausted order keys = None
  ↔ Forall (λ m, not_exhausted_keys exhausted m keys = []) order.
Proof.
  induction order as [|m order IH]; cbn [first_fit].
  - split; [constructor | done].
  - destruct (not_exhausted_keys exhausted m keys) as [|k ks] eqn:E.
    + rewrite IH. split.
      * intros H. by constructor.
      * intros H. by inversion H.
    + split; [done|]. intros H. inversion H; subst. congruence.
Qed.

Section Scheduler.

Variable Ledger : Type.
Variable is_exhausted : string → string → Ledger → bool * Ledger.

(** *** The loops against the replies of the ledger *)

Lemma available_keys_replies model keys l :
  available_keys Ledger is_exhausted model keys l
  = (keep_available keys
       (fst (replies Ledger is_exhausted (map (λ k, (k, model)) keys) l)),
     snd (replies Ledger is_exhausted (map (λ k, (k, model)) keys) l)).
Proof.
  revert l. induction keys as [|k keys IH]; intros l; simpl; [done|].
  destruct (is_exhausted k model l) as [b l1].
  rewrite IH.
  destruct (replies Ledger is_exhausted (map (λ k0, (k0, model)) keys) l1)
    as [bs l2].
  simpl. by destruct b.
Qed.

Lemma first_available_rows order keys l :
  fst (first_available Ledger is_exhausted order keys l)
  = first_fit_rows order keys (reply_table Ledger is_exhausted order keys l).
Proof.
  revert l. induction order as [|m order IH]; intros l; simpl; [done|].
  rewrite available_keys_replies.
  destruct (replies Ledger is_exhausted (map (λ k, (k, m)) keys) l) as [row l1].
  simpl. destruct (keep_available keys row); [apply IH | done].
Qed.

Lemma select_from_rows priority preferred keys l :
  fst (select_from Ledger is_exhausted priority preferred keys l)
  = selection_of (prioritise preferred priority) keys
      (reply_table Ledger is_exhausted (prioritise preferred priority) keys l).
Proof.
  unfold select_from, selection_of; cbv zeta.
  rewrite <- first_available_rows.
  destruct (first_available Ledger is_exhausted
              (prioritise preferred priority) keys l) as [[[m ks]|] l'];
    simpl; [done|].
  unfold fail_open. destruct keys; [done|].
  by destruct (prioritise preferred priority).
Qed.

(** C8.  A preferred model is moved to the front of the priority list and
    the remaining models keep their relative order; over the source's own
    priority list the selection never raises.  The selection is
    the one determined by the replies of the ledger, asked for each
    model in that order and each configured key: when these replies are
    given by [exhausted], it returns the first model of the order whose
    list of keys not reported exhausted is non-empty, with that list,
    every earlier model having none; when no model has an available key
    and there is a key, it fails open with the top-priority model and
    the first configured key. *)
Theorem select_first_available priority preferred keys l :
  let order := prioritise preferred priority in
  let chosen := fst (select_from Ledger is_exhausted priority preferred keys l) in
  (∀ p, preferred = Some p → p ≠ ""%string →
     order = p :: filter (λ m, m ≠ p) priority
     ∧ filter (λ m, m ≠ p) priority `sublist_of` priority)
  ∧ (preferred = None → order = priority)
  ∧ (priority = model_priority →
     chosen = fst (_get_available_model_and_keys Ledger is_exhausted preferred keys l)
     ∧ chosen ≠ IndexError)
  ∧ chosen = selection_of order keys (reply_table Ledger is_exhausted order keys l)
  ∧ (∀ exhausted,
       reply_table Ledger is_exhausted order keys l = table_of exhausted order keys →
       chosen = selectCandidate_spec exhausted order keys
       ∧ (∀ m ks, first_fit exhausted order keys = Some (m, ks) →
            chosen = Selected (Some m) ks
            ∧ ks = not_exhausted_keys exhausted m keys
            ∧ ks ≠ []
            ∧ ∃ before after,
                order = before ++ m :: after
                ∧ Forall (λ m', not_exhausted_keys exhausted m' keys = []) before)
       ∧ (Forall (λ m, not_exhausted_keys exhausted m keys = []) order →
          ∀ k0 ks m0 ms, keys = k0 :: ks → order = m0 :: ms →
            chosen = Selected (Some m0) [k0])).
Proof.
  intros order chosen. split; [|split; [|split; [|split]]].
  - intros p -> Hp. subst order. split; [by apply prioritise_preferred|].
    apply sublist_filter.
  - by intros ->.
  - intros ->. split; [done|]. subst chosen. rewrite select_from_rows.
    by apply selection_of_no_error, prioritise_nonempty.
  - apply select_from_rows.
  - intros exhausted Htable.
    assert (Hspec : chosen = selectCandidate_spec exhausted order keys).
    { subst chosen. rewrite select_from_rows. fold order.
      rewrite Htable. apply selection_of_table_of. }
    split; [exact Hspec|]. split.
    + intros m ks Hfit. rewrite Hspec. unfold selectCandidate_spec. rewrite Hfit.
      apply first_fit_Some in Hfit as (before & after & Ho & Hb & Hks & Hne & _).
      repeat split; try done. by exists before, after.
    + intros Hall k0 ks m0 ms Hk Ho. rewrite Hspec. unfold selectCandidate_spec.
      apply first_fit_None in Hall. rewrite Hall. unfold fail_open.
      by rewrite Hk, Ho.
Qed.

End Scheduler.
End RotationFacts.

(** Concrete runs of the scheduler on the quota manager. *)
Module RotationRuns.
Import Quota Rotation Samples.

Abbreviation on_quota_manager :=
  (select_from (DB * nat) (quota_is_exhausted plain_digest ticking)).

(** The instance of C8 of the specification's example: priority
    [[A; B; C]], preferred B, every key exhausted for B and one key free
    for A; and the fail-open case on a ledger with every key cooling
    down. *)
Lemma select_first_available_witness :
  prioritise (Some "B"%string) abc = ["B"; "A"; "C"]%string
  ∧ fst (on_quota_manager abc (Some "B"%string) [key_a; key_b] (rotation_ledger, O))
    = Selected (Some "A"%string) [key_b]
  ∧ fst (on_quota_manager abc None [key_a; key_b] (all_cooling, O))
    = Selected (Some "A"%string) [key_a].
Proof.
  split; [|split].
  - pose proof (RotationFacts.select_first_available (DB * nat)
                  (quota_is_exhausted plain_digest ticking) abc (Some "B"%string)
                  [key_a; key_b] (rotation_ledger, O)) as (Horder & _).
    destruct (Horder "B"%string) as [-> _]; [reflexivity | discriminate |].
    vm_compute. reflexivity.
  - pose proof (RotationFacts.select_first_available (DB * nat)
                  (quota_is_exhausted plain_digest ticking) abc (Some "B"%string)
                  [key_a; key_b] (rotation_ledger, O)) as (_ & _ & _ & _ & Hspec).
    destruct (Hspec rotation_replies) as (_ & Hfit & _).
    + vm_compute. reflexivity.
    + apply (Hfit "A"%string [key_b]). vm_compute. reflexivity.
  - pose proof (RotationFacts.select_first_available (DB * nat)
                  (quota_is_exhausted plain_digest ticking) abc None
                  [key_a; key_b] (all_cooling, O)) as (_ & _ & _ & _ & Hspec).
    destruct (Hspec (λ _ _, true)) as (_ & _ & Hopen).
    + vm_compute. reflexivity.
    + apply (Hopen (ltac:(repeat constructor)) key_a [key_b] "A"%string
               ["B"; "C"]%string); reflexivity.
Defined.

End RotationRuns.

(** ** Event interceptor *)

Module InterceptorFacts.
Import Models Interceptor Samples.

(** A JSON [/getcaptcha/] body with a truthy ["pass"] leaves its verdict
    alone in the verdict queue. *)
Lemma getcaptcha_pass_last_value_wins r q data cr :
  endswith (url r) "/hsw.js" = false →
  contains "/getcaptcha/" (url r) = true →
  content_type r = Some "application/json"%string →
  json r = Some data → data_pass data = true → as_response data = Some cr →
  captcha_response_queue (task_handler r q) = [cr]
  ∧ captcha_payload_queue (task_handler r q) = captcha_payload_queue q.
Proof.
  intros Hh Hg Hc Hj Hp Hr. unfold task_handler. rewrite Hh, Hg.
  rewrite decide_True by exact Hc.
  unfold getcaptcha_json. by rewrite Hj, Hp, Hr.
Qed.

(** A [/checkcaptcha/] body is put behind whatever the verdict queue
    holds. *)
Lemma checkcaptcha_appends r q data cr :
  endswith (url r) "/hsw.js" = false →
  contains "/getcaptcha/" (url r) = false →
  contains "/checkcaptcha/" (url r) = true →
  json r = Some data → as_response data = Some cr →
  captcha_response_queue (task_handler r q) = captcha_response_queue q ++ [cr]
  ∧ captcha_payload_queue (task_handler r q) = captcha_payload_queue q.
Proof.
  intros Hh Hg Hc Hj Hr. unfold task_handler. rewrite Hh, Hg, Hc.
  unfold checkcaptcha. by rewrite Hj, Hr.
Qed.

(** The payload queue is never drained by the handler: it only grows at
    its tail. *)
Lemma payload_queue_fifo r q :
  ∃ new, captcha_payload_queue (task_handler r q) = captcha_payload_queue q ++ new.
Proof.
  unfold task_handler, getcaptcha_json, checkcaptcha.
  repeat (case_match; simpl); try (by exists []; rewrite app_nil_r); by eexists [_].
Qed.

(** C9 on the code: verdicts delivered by [/checkcaptcha/] are enqueued
    without draining, so after a failing and then a passing verdict the
    queue shows both and the stale one comes out first; the verdict of a
    JSON [/getcaptcha/] body does drain the queue first. *)
Theorem checkcaptcha_verdicts_pile_up :
  captcha_response_queue (handle_all [check_fail; check_pass] empty_queues)
  = [verdict_fail; verdict_pass]
  ∧ captcha_response_queue (handle_all [check_fail; getcaptcha_pass] empty_queues)
    = [verdict_pass].
Proof. split; vm_compute; reflexivity. Qed.

End InterceptorFacts.

(** ** Session controller *)

Module SessionFacts.
Import Models Session.

(** *** One pass of the loop *)

Lemma dispatch_block_attempts cfg d a :
  challenge_attempts (fst (dispatch_block cfg d a)) = challenge_attempts a.
Proof.
  unfold dispatch_block, store_payload.
  destruct (stored d), (result d) as [[]| |]; simpl; try done;
    by destruct (MAX_RESETS cfg <? _).
Qed.

Lemma submitted_block_attempts cfg r a :
  challenge_attempts (submitted_block cfg r a) = challenge_attempts a.
Proof.
  unfold submitted_block, cache_validated_response.
  destruct r as [[cr|] [p|]|]; simpl; try done;
    try (by destruct (MAX_RESETS cfg <? _)).
  destruct (is_pass cr); simpl; [done|]. by destruct (RETRY_ON_FAILURE cfg).
Qed.

Lemma loop_body_attempts cfg ev a :
  challenge_attempts (loop_body cfg ev a) = challenge_attempts a + 1.
Proof.
  unfold loop_body; cbv zeta.
  destruct (MAX_CHALLENGE_ATTEMPTS cfg <? _); [done|].
  set (a1 := set_challenge_attempts (challenge_attempts a + 1) a).
  assert (H1 : challenge_attempts a1 = challenge_attempts a + 1) by done.
  assert (Hd : ∀ x : Agent * bool, challenge_attempts (fst x) = challenge_attempts a + 1 →
               challenge_attempts
                 (let '(a2, continued) := x in
                  if continued then a2
                  else match state a2 with
                       | SUBMITTED => submitted_block cfg (race ev) a2
                       | _ => a2
                       end) = challenge_attempts a + 1).
  { intros [a2 []] H2; simpl in *; [done|].
    destruct (state a2); try done. by rewrite submitted_block_attempts. }
  apply Hd. destruct (state a1); try done; by rewrite dispatch_block_attempts.
Qed.

Lemma loop_body_over_limit cfg ev a :
  MAX_CHALLENGE_ATTEMPTS cfg < challenge_attempts a + 1 →
  loop_body cfg ev a
  = set_state FAILURE (set_challenge_attempts (challenge_attempts a + 1) a).
Proof.
  intros Hlt. unfold loop_body; cbv zeta.
  apply Z.ltb_lt in Hlt. simpl. by rewrite Hlt.
Qed.

Lemma loop_body_within_limit cfg ev a :
  challenge_attempts a + 1 ≤ MAX_CHALLENGE_ATTEMPTS cfg →
  loop_body cfg ev a
  = let a1 := set_challenge_attempts (challenge_attempts a + 1) a in
    let '(a2, continued) :=
      match state a with
      | INIT | CHALLENGE_PENDING => dispatch_block cfg (dispatch ev) a1
      | _ => (a1, false)
      end in
    if continued then a2
    else match state a2 with
         | SUBMITTED => submitted_block cfg (race ev) a2
         | _ => a2
         end.
Proof.
  intros Hle. unfold loop_body; cbv zeta.
  apply Z.ltb_ge in Hle. simpl. by rewrite Hle.
Qed.

(** *** The loop ends *)

Lemma solve_loop_terminates cfg evs fuel :
  ∀ i a,
    (Z.to_nat (MAX_CHALLENGE_ATTEMPTS cfg - challenge_attempts a) + 1 ≤ fuel)%nat →
    ∃ a', solve_loop fuel cfg evs i a = Some a'
          ∧ terminal (state a') = true
          ∧ challenge_attempts a'
            ≤ Z.max (challenge_attempts a) (MAX_CHALLENGE_ATTEMPTS cfg) + 1.
Proof.
  induction fuel as [|fuel IH]; intros i a Hfuel; [lia|].
  simpl. destruct (terminal (state a)) eqn:Ht.
  { exists a. repeat split; [done | lia]. }
  pose proof (loop_body_attempts cfg (evs i) a) as Hatt.
  destruct (decide (MAX_CHALLENGE_ATTEMPTS cfg < challenge_attempts a + 1)) as [Hover|Hin].
  - rewrite (loop_body_over_limit cfg (evs i) a Hover).
    exists (set_state FAILURE (set_challenge_attempts (challenge_attempts a + 1) a)).
    split; [by destruct fuel|]. split; [done|]. simpl. lia.
  - destruct (IH (S i) (loop_body cfg (evs i) a)) as (a' & Hrun & Hterm & Hbound).
    { rewrite Hatt. lia. }
    exists a'. split; [done|]. split; [done|]. rewrite Hatt in Hbound. lia.
Qed.

(** C3.  Every pass of the loop body adds one to [challenge_attempts]; a
    pass on which the counter exceeds [MAX_CHALLENGE_ATTEMPTS] sets the
    state to FAILURE and does nothing else, whatever the state and the
    pending events; hence [wait_for_challenge] always returns, in a
    terminal state when the loop was entered, after at most
    [MAX_CHALLENGE_ATTEMPTS + 1] passes (one pass when the bound is
    negative). *)
Theorem attempt_limit_forces_failure cfg ev a :
  challenge_attempts (loop_body cfg ev a) = challenge_attempts a + 1
  ∧ (MAX_CHALLENGE_ATTEMPTS cfg < challenge_attempts a + 1 →
     loop_body cfg ev a
     = set_state FAILURE (set_challenge_attempts (challenge_attempts a + 1) a)
     ∧ state (loop_body cfg ev a) = FAILURE
     ∧ terminal (state (loop_body cfg ev a)) = true)
  ∧ (∀ evs found,
       ∃ signal a',
         wait_for_challenge cfg found evs a = Some (signal, a')
         ∧ (found = true →
            terminal (state a') = true
            ∧ challenge_attempts a' ≤ Z.max 0 (MAX_CHALLENGE_ATTEMPTS cfg) + 1
            ∧ (signal = SignalSuccess ↔ state a' = SUCCESS))).
Proof.
  split; [apply loop_body_attempts|]. split.
  - intros Hover. rewrite (loop_body_over_limit cfg ev a Hover). by repeat split.
  - intros evs found. unfold wait_for_challenge; cbv zeta.
    destruct found; cbn [negb].
    + destruct (solve_loop_terminates cfg evs (enough_fuel cfg) 0%nat (reset_session a))
        as (a' & Hrun & Hterm & Hbound).
      { unfold enough_fuel. simpl. rewrite Z.sub_0_r. lia. }
      rewrite Hrun. eexists _, a'. split; [done|]. intros _.
      split; [done|]. split; [exact Hbound|].
      case_decide; split; intros; done.
    + by eexists _, _.
Qed.

(** *** The SUBMITTED race *)

(** When the dispatch returns a truthy result the same pass goes on to the
    SUBMITTED block. *)
Lemma loop_body_submits cfg ev a :
  challenge_attempts a + 1 ≤ MAX_CHALLENGE_ATTEMPTS cfg →
  state a = INIT ∨ state a = CHALLENGE_PENDING →
  result (dispatch ev) = Returned true →
  loop_body cfg ev a
  = submitted_block cfg (race ev)
      (set_state SUBMITTED
         (store_payload (dispatch ev)
            (emit [DrainResponses]
               (set_challenge_attempts (challenge_attempts a + 1) a)))).
Proof.
  intros Hle Hst Hres. rewrite loop_body_within_limit by exact Hle.
  cbv zeta. unfold dispatch_block. rewrite Hres.
  by destruct Hst as [-> | ->].
Qed.

(** C1.  The SUBMITTED block decides on the set [done] of the race under
    [RESPONSE_TIMEOUT] (45 seconds by default), and the three tests of the
    code split every [done] set.  Empty [done]: FAILURE.  Payload task in
    [done] (also when the verdict task is there too): the reset counter
    grows by exactly one; within [MAX_RESETS] the session payload is
    replaced by the new one and the state is CHALLENGE_PENDING, beyond it
    the state is FAILURE; never SUCCESS.  Verdict task alone in [done]: a
    passing verdict is cached and the state is SUCCESS; a failing one
    leads to INIT with [RETRY_ON_FAILURE] and to FAILURE without.  A pass
    whose dispatch succeeds reaches this block at once. *)
Theorem submitted_race_outcomes cfg a :
  RESPONSE_TIMEOUT default_config = 45
  ∧ (∀ (res : option CaptchaResponse) (pay : option (option CaptchaPayload)),
       (res = None ∧ pay = None)
       ∨ (∃ p, pay = Some p)
       ∨ (∃ cr, res = Some cr ∧ pay = None))
  ∧ submitted_block cfg (Done None None) a = set_state FAILURE a
  ∧ (∀ res p,
       let a' := submitted_block cfg (Done res (Some p)) a in
       reset_count a' = reset_count a + 1
       ∧ state a' ≠ SUCCESS
       ∧ cr_list a' = cr_list a
       ∧ (reset_count a + 1 ≤ MAX_RESETS cfg →
          state a' = CHALLENGE_PENDING ∧ captcha_payload a' = p)
       ∧ (MAX_RESETS cfg < reset_count a + 1 →
          state a' = FAILURE ∧ captcha_payload a' = captcha_payload a))
  ∧ (∀ cr,
       let a' := submitted_block cfg (Done (Some cr) None) a in
       reset_count a' = reset_count a
       ∧ captcha_payload a' = captcha_payload a
       ∧ (is_pass cr = true →
          state a' = SUCCESS ∧ cr_list a' = cr_list a ++ [cr])
       ∧ (is_pass cr = false → RETRY_ON_FAILURE cfg = true →
          state a' = INIT ∧ cr_list a' = cr_list a)
       ∧ (is_pass cr = false → RETRY_ON_FAILURE cfg = false →
          state a' = FAILURE ∧ cr_list a' = cr_list a))
  ∧ (∀ ev,
       challenge_attempts a + 1 ≤ MAX_CHALLENGE_ATTEMPTS cfg →
       state a = INIT ∨ state a = CHALLENGE_PENDING →
       result (dispatch ev) = Returned true →
       loop_body cfg ev a
       = submitted_block cfg (race ev)
           (set_state SUBMITTED
              (store_payload (dispatch ev)
                 (emit [DrainResponses]
                    (set_challenge_attempts (challenge_attempts a + 1) a))))).
Proof.
  split; [reflexivity|]. split.
  { intros [cr|] [p|]; eauto. }
  split; [reflexivity|]. split; [|split].
  - intros res p a'. subst a'. unfold submitted_block.
    assert (Hbody :
      ∀ x, x = (let a0 := set_reset_count (reset_count a + 1) a in
                if MAX_RESETS cfg <? reset_count a0
                then set_state FAILURE a0
                else set_state CHALLENGE_PENDING (set_captcha_payload p a0)) →
           reset_count x = reset_count a + 1
           ∧ state x ≠ SUCCESS
           ∧ cr_list x = cr_list a
           ∧ (reset_count a + 1 ≤ MAX_RESETS cfg →
              state x = CHALLENGE_PENDING ∧ captcha_payload x = p)
           ∧ (MAX_RESETS cfg < reset_count a + 1 →
              state x = FAILURE ∧ captcha_payload x = captcha_payload a)).
    { intros x ->. cbv zeta. simpl.
      destruct (MAX_RESETS cfg <? reset_count a + 1) eqn:E; simpl.
      - apply Z.ltb_lt in E. repeat split; try done; lia.
      - apply Z.ltb_ge in E. repeat split; try done; lia. }
    destruct res; by apply Hbody.
  - intros cr a'. subst a'. unfold submitted_block, cache_validated_response.
    destruct (is_pass cr) eqn:Ep; simpl.
    + repeat split; try done.
    + destruct (RETRY_ON_FAILURE cfg); simpl; repeat split; try done.
  - intros ev. apply loop_body_submits.
Qed.

(** *** The dispatch block *)

(** C2, as the code has it.  In a pass that starts in INIT or
    CHALLENGE_PENDING within the attempt bound, a dispatch that times out
    reloads the surface, waits and sets the state to INIT, and leaves the
    reset counter as it was: the timeout is neither counted nor checked
    against [MAX_RESETS], and only the attempt counter bounds it.  An
    explicit failure adds one to the reset counter and, within
    [MAX_RESETS], reloads, waits, re-arms the checkbox and sets INIT;
    beyond [MAX_RESETS] it sets FAILURE without a reload. *)
Theorem dispatch_timeout_keeps_reset_count cfg ev a :
  challenge_attempts a + 1 ≤ MAX_CHALLENGE_ATTEMPTS cfg →
  state a = INIT ∨ state a = CHALLENGE_PENDING →
  let a' := loop_body cfg ev a in
  (result (dispatch ev) = TimedOut →
     state a' = INIT
     ∧ reset_count a' = reset_count a
     ∧ effects a' = effects a ++ [DrainResponses; PageReload; Sleep 2]
     ∧ challenge_attempts a' = challenge_attempts a + 1)
  ∧ (result (dispatch ev) = Returned false →
     reset_count a' = reset_count a + 1
     ∧ (reset_count a + 1 ≤ MAX_RESETS cfg →
        state a' = INIT
        ∧ effects a'
          = effects a ++ [DrainResponses; PageReload; Sleep 2; ClickCheckbox])
     ∧ (MAX_RESETS cfg < reset_count a + 1 →
        state a' = FAILURE ∧ effects a' = effects a ++ [DrainResponses])).
Proof.
  intros Hle Hst a'. subst a'. rewrite loop_body_within_limit by exact Hle.
  cbv zeta. unfold dispatch_block, store_payload. split.
  - intros ->.
    destruct Hst as [-> | ->]; destruct (stored (dispatch ev)); simpl;
      by rewrite <- app_assoc.
  - intros ->.
    assert (Hst' : ∀ X Y : Agent * bool,
              match state a with
              | INIT | CHALLENGE_PENDING => X
              | _ => Y
              end = X) by (by destruct Hst as [-> | ->]).
    rewrite Hst'. clear Hst'.
    destruct (stored (dispatch ev)); simpl;
      destruct (MAX_RESETS cfg <? reset_count a + 1) eqn:E; simpl;
      (apply Z.ltb_lt in E || apply Z.ltb_ge in E);
      repeat split; rewrite <- ?app_assoc; try done; lia.
Qed.

End SessionFacts.

(** Concrete runs of the session loop. *)
Module SessionRuns.
Import Models Session Samples.

(** The instance of C3: the fifth pass under the default bound of 4. *)
Lemma attempt_limit_forces_failure_witness :
  let a := mkAgent CHALLENGE_PENDING 0 4 None None [] [] in
  MAX_CHALLENGE_ATTEMPTS default_config < challenge_attempts a + 1
  ∧ state (loop_body default_config (pass_verdict verdict_pass) a) = FAILURE.
Proof.
  intros a. split; [reflexivity|].
  apply (proj1 (proj2 (SessionFacts.attempt_limit_forces_failure
                         default_config (pass_verdict verdict_pass) a))).
  reflexivity.
Defined.

(** The instance of C1: a pass from [new_agent] whose race is won by a
    new payload, by a passing verdict and by a failing verdict. *)
Lemma submitted_race_outcomes_witness :
  (let a' := submitted_block default_config (Done None (Some (Some next_round)))
               new_agent in
   state a' = CHALLENGE_PENDING ∧ captcha_payload a' = Some next_round)
  ∧ (let a' := submitted_block default_config (Done None (Some (Some next_round)))
                 one_reset_used in
     state a' = FAILURE ∧ captcha_payload a' = None)
  ∧ (let a' := submitted_block default_config (Done (Some verdict_pass) None)
                 new_agent in
     state a' = SUCCESS ∧ cr_list a' = [verdict_pass])
  ∧ (let a' := submitted_block default_config (Done (Some verdict_fail) None)
                 new_agent in
     state a' = INIT ∧ cr_list a' = [])
  ∧ (let a' := submitted_block (mkConfig 4 1 180 45 false)
                 (Done (Some verdict_fail) None) new_agent in
     state a' = FAILURE ∧ cr_list a' = [])
  ∧ state (loop_body default_config (pass_verdict verdict_pass) new_agent) = SUCCESS
  ∧ state (loop_body default_config pass_new_payload new_agent) = CHALLENGE_PENDING
  ∧ state (loop_body default_config pass_silent new_agent) = FAILURE.
Proof.
  pose proof (SessionFacts.submitted_race_outcomes default_config new_agent)
    as (_ & _ & _ & Hpay & Hres & Hloop).
  pose proof (SessionFacts.submitted_race_outcomes default_config one_reset_used)
    as (_ & _ & _ & Hpay1 & _).
  pose proof (SessionFacts.submitted_race_outcomes (mkConfig 4 1 180 45 false)
                new_agent) as (_ & _ & _ & _ & Hres0 & _).
  destruct (Hpay None (Some next_round)) as (_ & _ & _ & Hin & _).
  destruct (Hpay1 None (Some next_round)) as (_ & _ & _ & _ & Hout).
  destruct (Hres verdict_pass) as (_ & _ & Hok & _).
  destruct (Hres verdict_fail) as (_ & _ & _ & Hretry & _).
  destruct (Hres0 verdict_fail) as (_ & _ & _ & _ & Hstop).
  split; [apply Hin; vm_compute; discriminate|].
  split; [apply Hout; reflexivity|].
  split; [apply Hok; reflexivity|].
  split; [apply Hretry; reflexivity|].
  split; [apply Hstop; reflexivity|].
  assert (Hwithin : challenge_attempts new_agent + 1
                    ≤ MAX_CHALLENGE_ATTEMPTS default_config)
    by (vm_compute; discriminate).
  assert (Hinit : state new_agent = INIT ∨ state new_agent = CHALLENGE_PENDING)
    by (left; reflexivity).
  split; [|split].
  - rewrite (Hloop (pass_verdict verdict_pass) Hwithin Hinit eq_refl). reflexivity.
  - rewrite (Hloop pass_new_payload Hwithin Hinit eq_refl). reflexivity.
  - rewrite (Hloop pass_silent Hwithin Hinit eq_refl). reflexivity.
Defined.

(** C2 as stated fails: with the one reset of the default budget used, a
    pass whose dispatch fails explicitly ends the session in FAILURE with
    the reset counter at 2, while the same pass with a dispatch timeout
    goes back to INIT with the counter still at 1. *)
Lemma timeout_is_not_counted_as_reset :
  let failed := loop_body default_config pass_failed one_reset_used in
  let timed_out := loop_body default_config pass_timed_out one_reset_used in
  (state failed = FAILURE ∧ reset_count failed = 2)
  ∧ (state timed_out = INIT ∧ reset_count timed_out = 1)
  ∧ timed_out ≠ failed.
Proof. vm_compute. repeat split; try reflexivity. discriminate. Qed.

(** The instance of C2 on that session. *)
Lemma dispatch_timeout_keeps_reset_count_witness :
  let a' := loop_body default_config pass_timed_out one_reset_used in
  state a' = INIT
  ∧ reset_count a' = reset_count one_reset_used
  ∧ effects a' = effects one_reset_used ++ [DrainResponses; PageReload; Sleep 2]
  ∧ challenge_attempts a' = 2.
Proof.
  apply (SessionFacts.dispatch_timeout_keeps_reset_count default_config
           pass_timed_out one_reset_used).
  - vm_compute. discriminate.
  - left. reflexivity.
  - reflexivity.
Defined.

End SessionRuns.

(** ** Provider ring *)

Module RingFacts.
Import Ring.

Lemma getitem_in_range {A : Type} (l : list A) (i : Z) :
  0 ≤ i < Z.of_nat (length l) → is_Some (getitem l i).
Proof.
  intros [H0 H1]. unfold getitem.
  destruct (0 <=? i) eqn:E; [|apply Z.leb_gt in E; lia].
  apply lookup_lt_is_Some. lia.
Qed.

Lemma rotate_model_fields p :
  _api_keys (rotate_model p) = _api_keys p
  ∧ _models (rotate_model p) = _models p
  ∧ _key_index (rotate_model p) = _key_index p
  ∧ _client (rotate_model p) = _client p.
Proof. unfold rotate_model. by destruct (1 <? len (_models p)). Qed.

Lemma rotate_key_lists p :
  _api_keys (rotate_key p) = _api_keys p ∧ _models (rotate_key p) = _models p.
Proof.
  unfold rotate_key.
  destruct (1 <? len (_api_keys p)); cbv zeta.
  - destruct (_ && _); [|done]. by destruct (rotate_model_fields
      (set_client None (set_key_index ((_key_index p + 1) `mod` len (_api_keys p)) p)))
      as (-> & -> & _).
  - destruct (1 <? len (_models p)); [|done].
    by destruct (rotate_model_fields p) as (-> & -> & _).
Qed.

Lemma rotate_keys_lists n p :
  _api_keys (rotate_keys n p) = _api_keys p ∧ _models (rotate_keys n p) = _models p.
Proof.
  induction n as [|n [IHk IHm]]; simpl; [done|].
  destruct (rotate_key_lists (rotate_keys n p)) as [-> ->]. done.
Qed.

(** One rotation in closed form. *)
Lemma rotate_key_step p :
  in_range p →
  _key_index (rotate_key p) = (_key_index p + 1) `mod` len (_api_keys p)
  ∧ _model_index (rotate_key p)
    = (_model_index p + (_key_index p + 1) `div` len (_api_keys p))
        `mod` len (_models p).
Proof.
  intros [[Hk0 Hk1] [Hm0 Hm1]]. unfold rotate_key, rotate_model.
  set (K := len (_api_keys p)) in *. set (M := len (_models p)) in *.
  destruct (1 <? K) eqn:EK; cbv zeta; simpl.
  - apply Z.ltb_lt in EK.
    destruct (decide (_key_index p + 1 = K)) as [Hw|Hw].
    + rewrite Hw, Z.mod_same, Z.div_same by lia. simpl.
      fold M. destruct (1 <? M) eqn:EM; simpl.
      * done.
      * apply Z.ltb_ge in EM. split; [done|].
        assert (M = 1) as -> by lia. rewrite Z.mod_1_r. lia.
    + rewrite (Z.mod_small (_key_index p + 1) K) by lia.
      rewrite (Z.div_small (_key_index p + 1) K) by lia.
      destruct (_key_index p + 1 =? 0) eqn:E0; [apply Z.eqb_eq in E0; lia|].
      simpl. split; [done|]. rewrite Z.add_0_r, Z.mod_small; lia.
  - apply Z.ltb_ge in EK. assert (K = 1) as HK by lia.
    assert (_key_index p = 0) as Hk by lia.
    rewrite HK, Hk. rewrite Z.mod_1_r. change (0 + 1) with 1. rewrite Z.div_1_r.
    fold M. destruct (1 <? M) eqn:EM; simpl.
    + by rewrite Hk.
    + apply Z.ltb_ge in EM. assert (M = 1) as -> by lia.
      rewrite Z.mod_1_r. lia.
Qed.

Lemma rotate_key_in_range p : in_range p → in_range (rotate_key p).
Proof.
  intros Hr. destruct (rotate_key_step p Hr) as [Hk Hm].
  destruct (rotate_key_lists p) as [Hlk Hlm].
  destruct Hr as [[Hk0 Hk1] [Hm0 Hm1]].
  unfold in_range. rewrite Hk, Hm, Hlk, Hlm.
  split; apply Z.mod_pos_bound; lia.
Qed.

Lemma div_succ (a K : Z) :
  0 ≤ a → 0 < K → a `div` K + (a `mod` K + 1) `div` K = (a + 1) `div` K.
Proof.
  intros Ha HK.
  rewrite (Z.div_mod a K) at 3 by lia.
  rewrite <- Z.add_assoc, Z.mul_comm, Z.div_add_l by lia. done.
Qed.

Lemma rotate_keys_closed n p :
  in_range p →
  in_range (rotate_keys n p)
  ∧ _key_index (rotate_keys n p)
    = (_key_index p + Z.of_nat n) `mod` len (_api_keys p)
  ∧ _model_index (rotate_keys n p)
    = (_model_index p + (_key_index p + Z.of_nat n) `div` len (_api_keys p))
        `mod` len (_models p).
Proof.
  intros Hr. pose proof Hr as [[Hk0 Hk1] [Hm0 Hm1]].
  induction n as [|n (IHr & IHk & IHm)].
  - simpl. split; [done|]. rewrite Z.add_0_r.
    rewrite Z.mod_small, Z.div_small, Z.add_0_r, Z.mod_small by lia. done.
  - change (rotate_keys (S n) p) with (rotate_key (rotate_keys n p)).
    split; [by apply rotate_key_in_range|].
    destruct (rotate_key_step _ IHr) as [Hk Hm].
    destruct (rotate_keys_lists n p) as [Hlk Hlm].
    rewrite Hk, Hm, Hlk, Hlm, IHk, IHm.
    replace (_key_index p + Z.of_nat (S n)) with (_key_index p + Z.of_nat n + 1) by lia.
    split.
    + by rewrite Z.add_mod_idemp_l by lia.
    + rewrite Z.add_mod_idemp_l by lia. rewrite <- Z.add_assoc.
      by rewrite div_succ by lia.
Qed.

Lemma new_provider_in_range api models :
  as_list api ≠ [] → as_list models ≠ [] → in_range (new_provider api models).
Proof.
  intros Ha Hm. unfold in_range, new_provider, len; simpl.
  destruct (as_list api); [done|]. destruct (as_list models); [done|].
  simpl. lia.
Qed.

(** X1 (ring order).  From indices in range, [n] calls of [rotate_key] lead
    to key index [(i + n) mod K] and model index [(j + (i + n) / K) mod M],
    [K] and [M] being the numbers of keys and models: keys rotate first and
    the model advances each time the key index wraps to 0.  Both indices
    stay in range, so [model] and the current key never raise; after [K]
    calls the key is the same and the model is the next one; after
    [K * M] calls the ring is back at the pair it started from. *)
Theorem rotate_key_ring_order n p :
  in_range p →
  let K := len (_api_keys p) in
  let M := len (_models p) in
  let q := rotate_keys n p in
  in_range q
  ∧ is_Some (api_key q) ∧ is_Some (model q)
  ∧ _key_index q = (_key_index p + Z.of_nat n) `mod` K
  ∧ _model_index q = (_model_index p + (_key_index p + Z.of_nat n) `div` K) `mod` M
  ∧ (Z.of_nat n = K →
     _key_index q = _key_index p ∧ _model_index q = (_model_index p + 1) `mod` M)
  ∧ (Z.of_nat n = K * M →
     _key_index q = _key_index p ∧ _model_index q = _model_index p).
Proof.
  intros Hr K M q. pose proof Hr as [[Hk0 Hk1] [Hm0 Hm1]].
  destruct (rotate_keys_closed n p Hr) as (Hq & Hk & Hm). fold K in Hk, Hm. fold M in Hm.
  fold K in Hk1. fold M in Hm1.
  destruct (rotate_keys_lists n p) as [Hlk Hlm].
  split; [done|].
  split. { unfold api_key. apply getitem_in_range. apply Hq. }
  split. { unfold model. apply getitem_in_range. apply Hq. }
  split; [done|]. split; [done|]. split.
  - intros Hn. subst q. rewrite Hk, Hm, Hn.
    replace (_key_index p + K) with (_key_index p + 1 * K) by lia.
    rewrite Z.mod_add, Z.div_add by lia.
    rewrite Z.mod_small, Z.div_small by lia. done.
  - intros Hn. subst q. rewrite Hk, Hm, Hn.
    replace (_key_index p + K * M) with (_key_index p + M * K) by lia.
    rewrite Z.mod_add, Z.div_add by lia.
    rewrite Z.mod_small, Z.div_small by lia.
    replace (_model_index p + (0 + M)) with (_model_index p + 1 * M) by lia.
    rewrite Z.mod_add by lia. rewrite Z.mod_small by lia. done.
Qed.

(** X2 (ring coverage).  From indices in range, every pair of a key index
    and a model index is reached by fewer than [K * M] calls of
    [rotate_key]. *)
Theorem rotate_key_reaches_every_pair p a b :
  in_range p →
  0 ≤ a < len (_api_keys p) → 0 ≤ b < len (_models p) →
  ∃ n, Z.of_nat n < len (_api_keys p) * len (_models p)
       ∧ _key_index (rotate_keys n p) = a
       ∧ _model_index (rotate_keys n p) = b.
Proof.
  intros Hr Ha Hb. pose proof Hr as [[Hk0 Hk1] [Hm0 Hm1]].
  set (K := len (_api_keys p)) in *. set (M := len (_models p)) in *.
  set (i := _key_index p) in *. set (j := _model_index p) in *.
  set (q0 := (b - j) `mod` M).
  assert (Hq0 : 0 ≤ q0 < M) by (apply Z.mod_pos_bound; lia).
  assert (Hb' : (j + q0) `mod` M = b).
  { unfold q0. rewrite Z.add_mod_idemp_r by lia.
    replace (j + (b - j)) with b by lia. apply Z.mod_small. lia. }
  (* the target reading of the ring counter: a + K * q0, one turn later when
     that lies behind the start *)
  set (t := if decide (i ≤ a + K * q0) then a + K * q0 else a + K * (q0 + M)).
  assert (Ht : i ≤ t < i + K * M ∧ t `mod` K = a ∧ (j + t `div` K) `mod` M = b).
  { unfold t. case_decide as Hd.
    - split; [nia|]. split.
      + rewrite Z.mul_comm, Z.mod_add by lia. apply Z.mod_small. lia.
      + rewrite Z.mul_comm, Z.div_add by lia. rewrite Z.div_small by lia. done.
    - assert (q0 = 0) as Hz by nia. split; [nia|]. split.
      + rewrite Z.mul_comm, Z.mod_add by lia. apply Z.mod_small. lia.
      + rewrite Z.mul_comm, Z.div_add by lia. rewrite Z.div_small by lia.
        rewrite Hz. replace (j + (0 + (0 + M))) with (j + 1 * M) by lia.
        rewrite Z.mod_add by lia. rewrite <- Hb', Hz. by rewrite Z.add_0_r. }
  destruct Ht as ([Ht0 Ht1] & Hta & Htb).
  exists (Z.to_nat (t - i)).
  destruct (rotate_keys_closed (Z.to_nat (t - i)) p Hr) as (_ & Hk & Hm).
  fold K i in Hk. fold K M i j in Hm.
  rewrite Z2Nat.id in * by lia.
  replace (i + (t - i)) with t in * by lia.
  split; [lia|]. by rewrite Hk, Hm.
Qed.

(** *** The cached client *)

Lemma rotate_model_api_key p : api_key (rotate_model p) = api_key p.
Proof.
  unfold api_key. by destruct (rotate_model_fields p) as (-> & _ & -> & _).
Qed.

Lemma rotate_key_client_current p : client_current p → client_current (rotate_key p).
Proof.
  intros Hc. unfold rotate_key.
  destruct (1 <? len (_api_keys p)); cbv zeta.
  - assert (Hn : ∀ p', _client p' = None → client_current p')
      by (intros p' Hn c; by rewrite Hn).
    destruct (_ && _); [|by apply Hn].
    apply Hn. by destruct (rotate_model_fields
      (set_client None (set_key_index ((_key_index p + 1) `mod` len (_api_keys p)) p)))
      as (_ & _ & _ & ->).
  - destruct (1 <? len (_models p)); [|done].
    intros c. rewrite rotate_model_api_key.
    destruct (rotate_model_fields p) as (_ & _ & _ & ->). apply Hc.
Qed.

Lemma ring_op_client_current op p : client_current p → client_current (ring_op op p).
Proof.
  intros Hc. destruct op; simpl.
  - by apply rotate_key_client_current.
  - intros c. rewrite rotate_model_api_key.
    destruct (rotate_model_fields p) as (_ & _ & _ & ->). apply Hc.
  - unfold client. destruct (_client p) as [c|] eqn:E; [done|].
    destruct (api_key p) as [k|] eqn:Ek; [|done].
    intros c [= <-]. exact Ek.
Qed.

Lemma ring_ops_client_current ops p : client_current p → client_current (ring_ops ops p).
Proof.
  revert p. induction ops as [|op ops IH]; intros p Hc; simpl; [done|].
  apply IH. by apply ring_op_client_current.
Qed.

(** X3 (client of the current key).  Whatever sequence of rotations and
    requests a provider has gone through since [__init__], the client that
    the property [client] hands out was built with the key the ring points
    at: a rotation to another key always drops the cached client. *)
Theorem client_belongs_to_current_key api models ops c p' :
  client (ring_ops ops (new_provider api models)) = Some (c, p') →
  api_key (ring_ops ops (new_provider api models)) = Some c
  ∧ api_key p' = Some c
  ∧ _client p' = Some c.
Proof.
  intros Hcl.
  assert (Hc : client_current (ring_ops ops (new_provider api models))).
  { apply ring_ops_client_current. by intros c0. }
  unfold client in Hcl.
  destruct (_client (ring_ops ops (new_provider api models))) as [c0|] eqn:E.
  - injection Hcl as <- <-. split; [by apply Hc|]. split; [by apply Hc | done].
  - destruct (api_key (ring_ops ops (new_provider api models))) as [k|] eqn:Ek; [|done].
    injection Hcl as <- <-. done.
Qed.

End RingFacts.

Module RingRuns.
Import Ring Examples.

Lemma two_by_three_in_range : in_range two_by_three.
Proof. unfold in_range; simpl. unfold len; simpl. lia. Qed.

(** Two keys and three models: two rotations come back to the first key
    with the second model, six to the starting pair. *)
Lemma rotate_key_ring_order_witness :
  in_range two_by_three
  ∧ (api_key (rotate_keys 2 two_by_three) = Some "key-a"%string
     ∧ model (rotate_keys 2 two_by_three) = Some "m1"%string)
  ∧ _key_index (rotate_keys 2 two_by_three) = 0
  ∧ _model_index (rotate_keys 2 two_by_three) = 1
  ∧ _key_index (rotate_keys 6 two_by_three) = 0
  ∧ _model_index (rotate_keys 6 two_by_three) = 0.
Proof.
  split; [exact two_by_three_in_range|]. split; [by vm_compute|].
  destruct (RingFacts.rotate_key_ring_order 2 two_by_three two_by_three_in_range)
    as (_ & _ & _ & _ & _ & HK & _).
  destruct (RingFacts.rotate_key_ring_order 6 two_by_three two_by_three_in_range)
    as (_ & _ & _ & _ & _ & _ & HKM).
  destruct (HK eq_refl) as [H1 H2]. destruct (HKM eq_refl) as [H3 H4].
  split; [exact H1|]. split; [exact H2|]. split; [exact H3 | exact H4].
Defined.

(** The second key under the third model is reached in fewer than six
    rotations. *)
Lemma rotate_key_reaches_every_pair_witness :
  ∃ n, Z.of_nat n < len (_api_keys two_by_three) * len (_models two_by_three)
       ∧ _key_index (rotate_keys n two_by_three) = 1
       ∧ _model_index (rotate_keys n two_by_three) = 2.
Proof.
  apply (RingFacts.rotate_key_reaches_every_pair two_by_three 1 2 two_by_three_in_range);
    unfold len; simpl; lia.
Defined.

(** A client is built, the key is rotated, and the next client is built
    with the second key. *)
Lemma client_belongs_to_current_key_witness :
  api_key (ring_ops [UseClient; RotateKey]
             (new_provider (Many ["key-a"; "key-b"]%string) (One "m0"%string)))
  = Some "key-b"%string.
Proof.
  apply (RingFacts.client_belongs_to_current_key (Many ["key-a"; "key-b"]%string) (One "m0"%string)
           [UseClient; RotateKey] "key-b"%string
           (set_client (Some "key-b"%string)
              (ring_ops [UseClient; RotateKey]
                 (new_provider (Many ["key-a"; "key-b"]%string) (One "m0"%string))))).
  reflexivity.
Defined.

End RingRuns.

(** ** Quota ledger: cooldowns, recovery and independence of records *)

Module QuotaMore.
Import Clock Quota QuotaViews.

Lemma append_inj_r (s a b : string) : (s ++ a)%string = (s ++ b)%string → a = b.
Proof. induction s as [|c s IH]; simpl; [done|]. intros [= H]. by apply IH. Qed.

Lemma append_inj_same_length (a b x y : string) :
  String.length a = String.length b →
  (a ++ x)%string = (b ++ y)%string → a = b ∧ x = y.
Proof.
  revert b. induction a as [|c a IH]; intros [|d b] Hl; simpl in *; try done.
  intros [= -> H]. destruct (IH b) as [-> ->]; [lia | done | done].
Qed.

Lemma should_reset_metadata now db1 db2 :
  metadata db1 = metadata db2 → should_reset now db1 = should_reset now db2.
Proof. unfold should_reset. by intros ->. Qed.

Lemma check_reset_idem now db :
  _check_reset now (_check_reset now db) = _check_reset now db.
Proof.
  unfold _check_reset at 2 3. destruct (should_reset now db) eqn:E.
  - unfold _check_reset, should_reset. simpl. rewrite lookup_insert_eq.
    destruct (reset_time_today now <=? now) eqn:E1;
      destruct (now <? reset_time_today now) eqn:E2; simpl; try done.
    apply Z.leb_le in E1. apply Z.ltb_lt in E2. lia.
  - unfold _check_reset. by rewrite E.
Qed.

Lemma check_reset_before_boundary now db :
  is_Some (metadata db !! "last_reset"%string) →
  now < reset_time_today now →
  _check_reset now db = db.
Proof.
  intros [last Hl] Hlt. unfold _check_reset, should_reset. rewrite Hl.
  destruct (reset_time_today now <=? now) eqn:E; [|done].
  apply Z.leb_le in E. lia.
Qed.

(** Projections of the row updates, without unfolding anything else. *)
Ltac rows :=
  cbn [exhausted_at failure_count last_failure temp_exhausted_until backoff_count
       set_backoff set_temp set_failure success_update] in *.

Section Ledger.

Variable h : string → string.

Abbreviation key_of := (_generate_key_id h).

(** *** The answer of [is_exhausted] read off the row *)

Lemma default_row_not_disqualified t : ¬ disqualified t default_row.
Proof. intros [H|[(u & H & _)|H]]; simpl in *; [done|done|lia]. Qed.

Lemma is_exhausted_row t1 t2 k m db :
  should_reset t1 db = false →
  fst (is_exhausted h t1 t2 k m db) = true
  ↔ disqualified t2 (row_or_default (key_of k m) db).
Proof.
  intros Hs. rewrite (QuotaFacts.is_exhausted_iff h).
  rewrite (QuotaFacts.check_reset_not_due t1 db Hs). unfold row_or_default.
  destruct (quotas db !! key_of k m) as [row|]; simpl.
  - split; [by intros (r & [= <-] & H) | by eexists].
  - split; [by intros (r & ? & _) | intros H; by apply default_row_not_disqualified in H].
Qed.

Lemma is_exhausted_fst_ext t1 t2 k m db1 db2 :
  metadata db1 = metadata db2 →
  quotas db1 !! key_of k m = quotas db2 !! key_of k m →
  fst (is_exhausted h t1 t2 k m db1) = fst (is_exhausted h t1 t2 k m db2).
Proof.
  intros Hm Hq. unfold is_exhausted; cbv zeta. unfold _check_reset.
  rewrite (should_reset_metadata t1 db1 db2 Hm).
  destruct (should_reset t1 db2); simpl.
  - by rewrite !lookup_empty.
  - rewrite Hq. destruct (quotas db2 !! key_of k m) as [row|]; [|done].
    destruct (truthy_text (exhausted_at row)); [done|].
    destruct (temp_exhausted_until row) as [u|]; [|done].
    by destruct (t2 <? u).
Qed.

(** *** What each operation does to the row of its key *)

Lemma row_mark_exhausted t k m db :
  row_or_default (key_of k m) (mark_exhausted h t k m db)
  = set_backoff (current_backoff (key_of k m) db + 1)
      (set_temp
         (Some (t + timedelta_seconds
                      (backoff_seconds (current_backoff (key_of k m) db + 1))))
         (row_or_default (key_of k m) db)).
Proof. unfold row_or_default at 1. by rewrite (QuotaFacts.mark_exhausted_lookup h). Qed.

Lemma row_mark_failure t k m db :
  row_or_default (key_of k m) (mark_failure h t k m db)
  = set_failure (failure_count (row_or_default (key_of k m) db) + 1) (Some t)
      (row_or_default (key_of k m) db).
Proof.
  unfold row_or_default at 1. rewrite (QuotaFacts.mark_failure_lookup h). simpl.
  unfold current_failures, row_or_default. by destruct (quotas db !! key_of k m).
Qed.

Lemma row_mark_temporary t k m s db :
  row_or_default (key_of k m) (mark_temporary_exhaustion h t k m s db)
  = set_temp (Some (t + timedelta_seconds s)) (row_or_default (key_of k m) db).
Proof.
  unfold row_or_default at 1, mark_temporary_exhaustion; cbv zeta.
  rewrite (QuotaFacts.upsert_lookup). simpl. unfold row_or_default.
  by destruct (quotas db !! key_of k m).
Qed.

Lemma row_mark_success k m db :
  row_or_default (key_of k m) (mark_success h k m db)
  = success_update (row_or_default (key_of k m) db).
Proof.
  unfold row_or_default, mark_success, with_quotas; simpl.
  rewrite lookup_alter_eq. by destruct (quotas db !! key_of k m).
Qed.

Lemma current_backoff_row kid db :
  current_backoff kid db = backoff_count (row_or_default kid db).
Proof. unfold current_backoff, row_or_default. by destruct (quotas db !! kid). Qed.

Lemma current_failures_row kid db :
  current_failures kid db = failure_count (row_or_default kid db).
Proof. unfold current_failures, row_or_default. by destruct (quotas db !! kid). Qed.

Lemma backoff_seconds_bounds n : 1 ≤ n → 30 ≤ backoff_seconds n ≤ 960.
Proof.
  intros Hn. unfold backoff_seconds.
  assert (1 ≤ 2 ^ (n - 1)) by (apply Z.pow_le_mono_r with (b := 0); lia).
  lia.
Qed.

Lemma armed_cooldown_row now kid db :
  armed_cooldown now kid db
  = (λ u, (u - now) `div` usec_per_second)
      <$> (quotas db !! kid ≫= temp_exhausted_until).
Proof.
  unfold armed_cooldown. destruct (quotas db !! kid) as [row|]; simpl; [|done].
  by destruct (temp_exhausted_until row).
Qed.

(** *** Cooldowns *)

Lemma not_exhausted_row t1 t2 k m db :
  should_reset t1 db = false →
  ¬ disqualified t2 (row_or_default (key_of k m) db) →
  fst (is_exhausted h t1 t2 k m db) = false.
Proof.
  intros Hs Hn. destruct (fst (is_exhausted h t1 t2 k m db)) eqn:E; [|done].
  by apply is_exhausted_row in E.
Qed.

Lemma expired_window_cleared t1 t2 k m db u :
  should_reset t1 db = false →
  truthy_text (exhausted_at (row_or_default (key_of k m) db)) = false →
  temp_exhausted_until (row_or_default (key_of k m) db) = Some u →
  u ≤ t2 →
  armed_cooldown t2 (key_of k m) (snd (is_exhausted h t1 t2 k m db)) = None.
Proof.
  intros Hs Hd Ht Hle. unfold row_or_default in Hd, Ht.
  destruct (quotas db !! key_of k m) as [row|] eqn:E; simpl in *; [|done].
  rewrite armed_cooldown_row.
  rewrite (QuotaFacts.is_exhausted_clears_expired h t1 t2 k m db row u); try done.
  by rewrite (QuotaFacts.check_reset_not_due t1 db Hs).
Qed.

(** X4 (cooldown of [mark_exhausted]).  On a ledger with non-negative
    counters the cooldown armed by [mark_exhausted] lasts between 30 and
    960 seconds.  Until it ends every [is_exhausted] check of the key whose
    reset check is not due answers true; once it has ended, a key without
    daily mark and with fewer than three failures is reported available
    again and the check clears the window. *)
Theorem mark_exhausted_locks_then_releases t k m db t1 t2 :
  wf_db db →
  should_reset t1 db = false →
  let kid := key_of k m in
  let db' := mark_exhausted h t k m db in
  let cool := backoff_seconds (current_backoff kid db + 1) in
  30 ≤ cool ≤ 960
  ∧ (t2 < t + timedelta_seconds cool →
     fst (is_exhausted h t1 t2 k m db') = true)
  ∧ (t + timedelta_seconds cool ≤ t2 →
     no_daily_mark kid db → current_failures kid db < 3 →
     fst (is_exhausted h t1 t2 k m db') = false
     ∧ armed_cooldown t2 kid (snd (is_exhausted h t1 t2 k m db')) = None).
Proof.
  intros Hwf Hs kid db' cool. subst kid.
  assert (Hs' : should_reset t1 db' = false) by (by rewrite <- Hs).
  pose proof (QuotaFacts.current_backoff_nonneg (key_of k m) db Hwf) as Hc.
  split; [apply backoff_seconds_bounds; lia|]. split.
  - intros Hlt. apply is_exhausted_row; [done|].
    subst db'. rewrite row_mark_exhausted. right; left. simpl. by eexists.
  - intros Hle Hd Hf. split.
    + apply not_exhausted_row; [done|]. subst db'. rewrite row_mark_exhausted.
      intros [H|[(u & Hu & Hlt)|H]]; rows.
      * unfold no_daily_mark in Hd. congruence.
      * injection Hu as <-. fold cool in Hlt. lia.
      * rewrite current_failures_row in Hf. lia.
    + subst db'. apply (expired_window_cleared t1 t2 k m _ (t + timedelta_seconds cool));
        [done | | | done]; rewrite row_mark_exhausted; rows; done.
Qed.

(** X5 (explicit retry-after).  [mark_temporary_exhaustion] arms a cooldown
    of exactly the given number of seconds and leaves both counters of the
    key as they were: for a key without daily mark and with fewer than
    three failures, a check whose reset is not due answers true exactly
    while the check time is before [now + seconds]. *)
Theorem mark_temporary_exhaustion_window t k m s db t1 t2 :
  should_reset t1 db = false →
  let kid := key_of k m in
  let db' := mark_temporary_exhaustion h t k m s db in
  no_daily_mark kid db → current_failures kid db < 3 →
  (fst (is_exhausted h t1 t2 k m db') = true ↔ t2 < t + timedelta_seconds s)
  ∧ armed_cooldown t kid db' = Some s
  ∧ current_backoff kid db' = current_backoff kid db
  ∧ current_failures kid db' = current_failures kid db.
Proof.
  intros Hs kid db' Hd Hf. subst kid.
  assert (Hs' : should_reset t1 db' = false) by (by rewrite <- Hs).
  assert (Hrow : row_or_default (key_of k m) db'
                 = set_temp (Some (t + timedelta_seconds s))
                     (row_or_default (key_of k m) db))
    by apply row_mark_temporary.
  split; [|split; [|split]].
  - rewrite (is_exhausted_row t1 t2 k m db' Hs'). rewrite Hrow. split.
    + intros [H|[(u & Hu & Hlt)|H]]; rows.
      * unfold no_daily_mark in Hd. congruence.
      * by injection Hu as <-.
      * rewrite current_failures_row in Hf. lia.
    + intros Hlt. right; left. rows. by eexists.
  - rewrite armed_cooldown_row. subst db'.
    unfold mark_temporary_exhaustion; cbv zeta. rewrite QuotaFacts.upsert_lookup. simpl.
    assert (Hdiv : (t + timedelta_seconds s - t) `div` usec_per_second = s).
    { unfold timedelta_seconds. replace (t + s * usec_per_second - t)
        with (s * usec_per_second) by lia. apply Z.div_mul. unfold usec_per_second. lia. }
    destruct (quotas db !! key_of k m); simpl; by rewrite Hdiv.
  - by rewrite !current_backoff_row, Hrow.
  - by rewrite !current_failures_row, Hrow.
Qed.

(** *** Recovery *)

(** X6 (success frees the key).  After [mark_success] a key without daily
    mark is reported available by every later check, whatever its failure
    streak and cooldown were and whether or not the check resets the
    ledger; a daily mark is not cleared by a success. *)
Theorem mark_success_frees_key k m db t1 t2 :
  let kid := key_of k m in
  (no_daily_mark kid db →
   fst (is_exhausted h t1 t2 k m (mark_success h k m db)) = false)
  ∧ (¬ no_daily_mark kid db → should_reset t1 db = false →
     fst (is_exhausted h t1 t2 k m (mark_success h k m db)) = true).
Proof.
  intros kid. subst kid. split.
  - intros Hd.
    destruct (fst (is_exhausted h t1 t2 k m (mark_success h k m db))) eqn:E; [|done].
    apply (QuotaFacts.is_exhausted_iff h) in E as (row & Hrow & Hdis).
    unfold _check_reset in Hrow.
    destruct (should_reset t1 (mark_success h k m db)); simpl in Hrow.
    + by rewrite lookup_empty in Hrow.
    + rewrite lookup_alter_eq in Hrow. unfold no_daily_mark, row_or_default in Hd.
      destruct (quotas db !! key_of k m) as [r|]; simpl in *; [|done].
      injection Hrow as <-.
      destruct Hdis as [H|[(u & Hu & _)|H]]; simpl in *; [congruence | done | lia].
  - intros Hd Hs. apply is_exhausted_row; [by rewrite <- Hs|].
    rewrite row_mark_success. left. simpl.
    unfold no_daily_mark in Hd. by destruct (truthy_text _).
Qed.

Lemma current_backoff_mark_success k m db :
  current_backoff (key_of k m) (mark_success h k m db)
  = Z.max 0 (current_backoff (key_of k m) db - 2).
Proof.
  rewrite !current_backoff_row, row_mark_success. simpl.
  unfold row_or_default. destruct (quotas db !! key_of k m); simpl; lia.
Qed.

(** X7 (gradual recovery of the backoff).  The backoff counter has no upper
    bound, only the cooldown has: after a success the next [mark_exhausted]
    arms [min(30 * 2^max(0, c - 2), 960)] seconds, [c] being the counter
    before the success, so from a counter of 7 on a single success does not
    shorten the next cooldown below the ceiling of 960 seconds. *)
Theorem success_lowers_backoff_two_levels t k m db :
  let kid := key_of k m in
  let c := current_backoff kid db in
  let db' := mark_exhausted h t k m (mark_success h k m db) in
  current_backoff kid db' = Z.max 0 (c - 2) + 1
  ∧ armed_cooldown t kid db' = Some (Z.min (30 * 2 ^ Z.max 0 (c - 2)) 960)
  ∧ (7 ≤ c → armed_cooldown t kid db' = Some 960).
Proof.
  intros kid c db'. subst db' kid.
  rewrite (QuotaFacts.current_backoff_mark_exhausted h),
    (QuotaFacts.armed_cooldown_mark_exhausted h), current_backoff_mark_success.
  fold c. unfold backoff_seconds.
  replace (Z.max 0 (c - 2) + 1 - 1) with (Z.max 0 (c - 2)) by lia.
  split; [done|]. split; [done|].
  intros Hc. f_equal. apply QuotaFacts.backoff_ceiling. lia.
Qed.

(** *** The instability threshold *)

Lemma fail_repeatedly_snoc nows t k m db :
  fail_repeatedly h (nows ++ [t]) k m db
  = mark_failure h t k m (fail_repeatedly h nows k m db).
Proof. unfold fail_repeatedly. by rewrite fold_left_app. Qed.

Lemma fail_repeatedly_row nows k m db :
  let r := row_or_default (key_of k m) db in
  let r' := row_or_default (key_of k m) (fail_repeatedly h nows k m db) in
  failure_count r' = failure_count r + Z.of_nat (length nows)
  ∧ exhausted_at r' = exhausted_at r
  ∧ temp_exhausted_until r' = temp_exhausted_until r
  ∧ backoff_count r' = backoff_count r
  ∧ metadata (fail_repeatedly h nows k m db) = metadata db.
Proof.
  induction nows as [|t nows IH] using rev_ind; intros r r'.
  - subst r r'. simpl. repeat split; lia.
  - subst r r'. rewrite fail_repeatedly_snoc, row_mark_failure. simpl.
    destruct IH as (Hf & He & Ht & Hb & Hm). rewrite length_app. simpl.
    repeat split; try done. lia.
Qed.

(** X8 (instability threshold).  [mark_failure] only counts: it changes
    neither the cooldown, nor the backoff counter, nor the daily mark.  For
    a key without daily mark and without a live cooldown, a check whose
    reset is not due answers true after a series of [mark_failure] calls
    exactly when the failure counter has reached 3; two failures of a key
    without history leave it available, the third disqualifies it. *)
Theorem failures_disqualify_at_three nows k m db t1 t2 :
  should_reset t1 db = false →
  let kid := key_of k m in
  let db' := fail_repeatedly h nows k m db in
  no_daily_mark kid db → no_live_cooldown t2 kid db →
  current_failures kid db' = current_failures kid db + Z.of_nat (length nows)
  ∧ current_backoff kid db' = current_backoff kid db
  ∧ (fst (is_exhausted h t1 t2 k m db') = true
     ↔ 3 ≤ current_failures kid db + Z.of_nat (length nows)).
Proof.
  intros Hs kid db' Hd Hc. subst kid.
  destruct (fail_repeatedly_row nows k m db) as (Hf & He & Ht & Hb & Hm).
  fold db' in Hf, He, Ht, Hb, Hm.
  rewrite !current_failures_row, !current_backoff_row.
  split; [done|]. split; [done|].
  rewrite (is_exhausted_row t1 t2 k m db') by (by rewrite (should_reset_metadata t1 db' db Hm)).
  unfold disqualified. rewrite He, Ht, Hf. split.
  - intros [H|[(u & Hu & Hlt)|H]]; [unfold no_daily_mark in Hd; congruence | | done].
    specialize (Hc u Hu). lia.
  - intros H. by right; right.
Qed.

(** *** Invariants *)

(** X9 (counters stay non-negative).  A ledger built by [__init__] on an
    empty cache directory, or on a store with non-negative counters, keeps
    both counters of every row non-negative under every sequence of
    operations. *)
Theorem reachable_ledger_counters_nonnegative t0 store ops :
  (∀ db, store = Some db → wf_db db) →
  wf_db (run_ops h ops (__init__ t0 store))
  ∧ ∀ kid, 0 ≤ current_failures kid (run_ops h ops (__init__ t0 store))
           ∧ 0 ≤ current_backoff kid (run_ops h ops (__init__ t0 store)).
Proof.
  intros Hs.
  assert (Hwf : wf_db (run_ops h ops (__init__ t0 store)))
    by (by apply QuotaFacts.wf_run_ops, QuotaFacts.wf_init).
  split; [done|]. intros kid.
  split; [by apply QuotaFacts.current_failures_nonneg
         | by apply QuotaFacts.current_backoff_nonneg].
Qed.

Lemma mark_keeps_rows op db kid :
  is_mark op = true →
  metadata (run_op h op db) = metadata db
  ∧ (is_Some (quotas db !! kid) → is_Some (quotas (run_op h op db) !! kid)).
Proof.
  assert (Hup : ∀ key fresh update,
            is_Some (quotas db !! kid) →
            is_Some (quotas (upsert key fresh update db) !! kid)).
  { intros key fresh update Hk. destruct (decide (kid = key)) as [->|Hne].
    - rewrite QuotaFacts.upsert_lookup. by eexists.
    - by rewrite QuotaFacts.upsert_lookup_ne. }
  destruct op as [t1 t2 k m|t k m|t k m s|t k m|k m]; simpl; intros Hm; try done;
    try (split; [done | apply Hup]).
  split; [done|]. intros [r Hr]. unfold mark_success, with_quotas; simpl.
  rewrite lookup_alter. case_decide; [subst; rewrite Hr; by eexists | by eexists].
Qed.

Lemma is_exhausted_rows t1 t2 k m db kid :
  is_Some (quotas (snd (is_exhausted h t1 t2 k m db)) !! kid)
  ↔ is_Some (quotas (_check_reset t1 db) !! kid).
Proof.
  unfold is_exhausted; cbv zeta.
  destruct (quotas (_check_reset t1 db) !! key_of k m) as [row|] eqn:E; [|done].
  destruct (truthy_text (exhausted_at row)); [done|].
  destruct (temp_exhausted_until row) as [u|]; [|done].
  destruct (t2 <? u); [done|]. simpl.
  destruct (decide (kid = key_of k m)) as [->|Hne].
  - rewrite lookup_insert_eq, E. split; by eexists.
  - by rewrite lookup_insert_ne.
Qed.

(** X10 (rows come and go only one way).  The four [mark_*] operations never
    delete a row and never touch the metadata; [is_exhausted] never creates
    a row, and when its reset check is not due it deletes none either. *)
Theorem rows_created_by_marks_deleted_by_reset op db kid :
  (is_mark op = true →
   metadata (run_op h op db) = metadata db
   ∧ (is_Some (quotas db !! kid) → is_Some (quotas (run_op h op db) !! kid)))
  ∧ (∀ t1 t2 k m,
       (is_Some (quotas (snd (is_exhausted h t1 t2 k m db)) !! kid) →
        is_Some (quotas db !! kid))
       ∧ (should_reset t1 db = false →
          is_Some (quotas db !! kid) →
          is_Some (quotas (snd (is_exhausted h t1 t2 k m db)) !! kid))).
Proof.
  split; [apply mark_keeps_rows|]. intros t1 t2 k m. split.
  - intros H. apply is_exhausted_rows in H. unfold _check_reset in H.
    destruct (should_reset t1 db); [|done]. simpl in H.
    rewrite lookup_empty in H. by destruct H.
  - intros Hs H. apply is_exhausted_rows.
    by rewrite (QuotaFacts.check_reset_not_due t1 db Hs).
Qed.

(** X11 (the reset check is stable).  Repeating the reset check at the same
    instant changes nothing; a check made before 08:00 UTC of its day never
    resets a ledger that has a last-reset entry; and the entry is present
    after every check. *)
Theorem check_reset_is_stable now db :
  _check_reset now (_check_reset now db) = _check_reset now db
  ∧ (is_Some (metadata db !! "last_reset"%string) →
     now < reset_time_today now → _check_reset now db = db)
  ∧ is_Some (metadata (_check_reset now db) !! "last_reset"%string).
Proof.
  split; [apply check_reset_idem|]. split; [apply check_reset_before_boundary|].
  unfold _check_reset, should_reset.
  destruct (metadata db !! "last_reset"%string) as [last|] eqn:E.
  - destruct (_ && _); simpl; [rewrite lookup_insert_eq | rewrite E]; by eexists.
  - simpl. rewrite lookup_insert_eq. by eexists.
Qed.

(** *** Records are per key and model *)

Lemma key_id_model_inj k m m' : key_of k m = key_of k m' → m = m'.
Proof.
  unfold _generate_key_id. intros H.
  apply append_inj_r in H. by apply (append_inj_r "_") in H.
Qed.

Lemma mark_other_key op db k m :
  is_mark op = true →
  key_of k m ≠ key_of (fst (op_pair op)) (snd (op_pair op)) →
  quotas (run_op h op db) !! key_of k m = quotas db !! key_of k m.
Proof.
  destruct op as [t1 t2 k0 m0|t k0 m0|t k0 m0 s|t k0 m0|k0 m0]; simpl;
    intros Hm Hne; try done; try (by apply QuotaFacts.upsert_lookup_ne).
  unfold mark_success, with_quotas; simpl. apply lookup_alter_ne. congruence.
Qed.

(** X12 (one record per key and model).  The records of one API key under
    two different models are different rows, and two keys whose digests
    have the same length share a row only if their digests and models are
    equal; a [mark_*] operation changes neither the row nor the answer of
    [is_exhausted] of any pair with another key id. *)
Theorem records_are_per_key_and_model k m k' m' :
  (m ≠ m' → key_of k m ≠ key_of k m')
  ∧ (String.length (h k) = String.length (h k') →
     key_of k m = key_of k' m' ↔ h k = h k' ∧ m = m')
  ∧ (∀ op db,
       is_mark op = true → op_pair op = (k, m) →
       key_of k' m' ≠ key_of k m →
       quotas (run_op h op db) !! key_of k' m' = quotas db !! key_of k' m'
       ∧ ∀ t1 t2, fst (is_exhausted h t1 t2 k' m' (run_op h op db))
                  = fst (is_exhausted h t1 t2 k' m' db)).
Proof.
  split; [|split].
  - intros Hne Heq. by apply key_id_model_inj in Heq.
  - intros Hl. unfold _generate_key_id. split.
    + intros Heq. destruct (append_inj_same_length _ _ _ _ Hl Heq) as [Ha Hb].
      split; [done|]. by apply (append_inj_r "_") in Hb.
    + by intros [-> ->].
  - intros op db Hm Hp Hne.
    assert (Hq : quotas (run_op h op db) !! key_of k' m' = quotas db !! key_of k' m').
    { apply mark_other_key; [done|]. by rewrite Hp. }
    split; [done|]. intros t1 t2. apply is_exhausted_fst_ext; [|done].
    by apply mark_keeps_rows with (kid := key_of k m).
Qed.

End Ledger.
End QuotaMore.

Module QuotaMoreRuns.
Import Clock Quota QuotaViews Samples Examples.

Abbreviation kid_a := (_generate_key_id plain_digest key_a flash).

(** A first [mark_exhausted] at 07:30: the key is locked at 07:30:10 and
    free again at 07:30:30, where the check also clears the window. *)
Lemma mark_exhausted_locks_then_releases_witness :
  fst (is_exhausted plain_digest (at_time 0 7 31) (at_second 0 7 30 10) key_a flash
         exhausted_once) = true
  ∧ fst (is_exhausted plain_digest (at_time 0 7 31) (at_second 0 7 30 30) key_a flash
           exhausted_once) = false
  ∧ armed_cooldown (at_second 0 7 30 30) kid_a
      (snd (is_exhausted plain_digest (at_time 0 7 31) (at_second 0 7 30 30) key_a flash
              exhausted_once)) = None.
Proof.
  assert (Hs : should_reset (at_time 0 7 31) fresh_ledger = false) by (by vm_compute).
  destruct (QuotaMore.mark_exhausted_locks_then_releases plain_digest (at_time 0 7 30) key_a flash
              fresh_ledger (at_time 0 7 31) (at_second 0 7 30 10)
              QuotaRuns.wf_fresh_ledger Hs) as (_ & Hlock & _).
  destruct (QuotaMore.mark_exhausted_locks_then_releases plain_digest (at_time 0 7 30) key_a flash
              fresh_ledger (at_time 0 7 31) (at_second 0 7 30 30)
              QuotaRuns.wf_fresh_ledger Hs) as (_ & _ & Hfree).
  split; [apply Hlock; by vm_compute|].
  apply Hfree; [vm_compute; discriminate | by vm_compute | by vm_compute].
Defined.

(** A retry delay of 17 seconds reported at 07:30. *)
Lemma mark_temporary_exhaustion_window_witness :
  let db' := mark_temporary_exhaustion plain_digest (at_time 0 7 30) key_a flash 17
               fresh_ledger in
  (fst (is_exhausted plain_digest (at_time 0 7 31) (at_second 0 7 30 16) key_a flash db')
   = true ↔ at_second 0 7 30 16 < at_time 0 7 30 + timedelta_seconds 17)
  ∧ armed_cooldown (at_time 0 7 30) kid_a db' = Some 17
  ∧ current_backoff kid_a db' = current_backoff kid_a fresh_ledger
  ∧ current_failures kid_a db' = current_failures kid_a fresh_ledger.
Proof.
  apply (QuotaMore.mark_temporary_exhaustion_window plain_digest (at_time 0 7 30) key_a flash 17
           fresh_ledger (at_time 0 7 31) (at_second 0 7 30 16));
    by vm_compute.
Defined.

(** A success after three failures, and a success on a row with a daily
    mark. *)
Lemma mark_success_frees_key_witness :
  fst (is_exhausted plain_digest (at_time 0 7 40) (at_time 0 7 40) key_a flash
         three_failures) = true
  ∧ fst (is_exhausted plain_digest (at_time 0 7 40) (at_time 0 7 40) key_a flash
           (mark_success plain_digest key_a flash three_failures)) = false
  ∧ fst (is_exhausted plain_digest (at_time 0 7 40) (at_time 0 7 40) key_a flash
           (mark_success plain_digest key_a flash daily_marked)) = true.
Proof.
  split; [by vm_compute|]. split.
  - apply (proj1 (QuotaMore.mark_success_frees_key plain_digest key_a flash three_failures
                    (at_time 0 7 40) (at_time 0 7 40))).
    by vm_compute.
  - apply (proj2 (QuotaMore.mark_success_frees_key plain_digest key_a flash daily_marked
                    (at_time 0 7 40) (at_time 0 7 40)));
      [vm_compute; discriminate | by vm_compute].
Defined.

(** Seven quota errors in a row, then one success: the next cooldown is
    still 960 seconds. *)
Lemma success_lowers_backoff_two_levels_witness :
  let db := snd (exhaust_repeatedly plain_digest [1; 2; 3; 4; 5; 6; 7] key_a flash
                   fresh_ledger) in
  current_backoff kid_a db = 7
  ∧ armed_cooldown 8 kid_a
      (mark_exhausted plain_digest 8 key_a flash (mark_success plain_digest key_a flash db))
    = Some 960.
Proof.
  intros db. split; [by vm_compute|].
  apply (proj2 (proj2 (QuotaMore.success_lowers_backoff_two_levels plain_digest 8 key_a flash db))).
  vm_compute. discriminate.
Defined.

(** Two failures leave a fresh key available, the third disqualifies it. *)
Lemma failures_disqualify_at_three_witness :
  fst (is_exhausted plain_digest (at_time 0 7 40) (at_time 0 7 40) key_a flash
         (fail_repeatedly plain_digest [at_time 0 7 10; at_time 0 7 20] key_a flash
            fresh_ledger)) = false
  ∧ fst (is_exhausted plain_digest (at_time 0 7 40) (at_time 0 7 40) key_a flash
           (fail_repeatedly plain_digest [at_time 0 7 10; at_time 0 7 20; at_time 0 7 30]
              key_a flash fresh_ledger)) = true.
Proof.
  assert (Hs : should_reset (at_time 0 7 40) fresh_ledger = false) by (by vm_compute).
  assert (Hd : no_daily_mark kid_a fresh_ledger) by (by vm_compute).
  assert (Hc : no_live_cooldown (at_time 0 7 40) kid_a fresh_ledger)
    by (intros u Hu; vm_compute in Hu; discriminate).
  destruct (QuotaMore.failures_disqualify_at_three plain_digest [at_time 0 7 10; at_time 0 7 20]
              key_a flash fresh_ledger (at_time 0 7 40) (at_time 0 7 40) Hs Hd Hc)
    as (_ & _ & H2).
  destruct (QuotaMore.failures_disqualify_at_three plain_digest
              [at_time 0 7 10; at_time 0 7 20; at_time 0 7 30]
              key_a flash fresh_ledger (at_time 0 7 40) (at_time 0 7 40) Hs Hd Hc)
    as (_ & _ & H3).
  split.
  - destruct (fst (is_exhausted plain_digest (at_time 0 7 40) (at_time 0 7 40) key_a flash
                     (fail_repeatedly plain_digest [at_time 0 7 10; at_time 0 7 20]
                        key_a flash fresh_ledger))); [|done].
    pose proof (proj1 H2 eq_refl) as H. vm_compute in H. by destruct H.
  - apply H3. vm_compute. discriminate.
Defined.

(** A day of traffic on a fresh ledger. *)
Lemma reachable_ledger_counters_nonnegative_witness :
  0 ≤ current_failures kid_a
        (run_ops plain_digest
           [OpMarkFailure (at_time 0 7 10) key_a flash; OpMarkSuccess key_a flash;
            OpMarkSuccess key_a flash]
           (__init__ (at_time 0 7 0) None))
  ∧ 0 ≤ current_backoff kid_a
          (run_ops plain_digest
             [OpMarkFailure (at_time 0 7 10) key_a flash; OpMarkSuccess key_a flash;
              OpMarkSuccess key_a flash]
             (__init__ (at_time 0 7 0) None)).
Proof.
  apply (QuotaMore.reachable_ledger_counters_nonnegative plain_digest (at_time 0 7 0) None).
  intros db Hdb. discriminate Hdb.
Defined.

(** A success on the row of three failures keeps the row; a check at 07:40
    keeps it too. *)
Lemma rows_created_by_marks_deleted_by_reset_witness :
  is_Some (quotas (mark_success plain_digest key_a flash three_failures) !! kid_a)
  ∧ is_Some (quotas (snd (is_exhausted plain_digest (at_time 0 7 40) (at_time 0 7 40)
                            key_b flash three_failures)) !! kid_a).
Proof.
  assert (Hrow : is_Some (quotas three_failures !! kid_a)) by (vm_compute; by eexists).
  destruct (QuotaMore.rows_created_by_marks_deleted_by_reset plain_digest
              (OpMarkSuccess key_a flash) three_failures kid_a) as [Hmark Hcheck].
  split.
  - by apply (proj2 (Hmark eq_refl)).
  - apply (proj2 (Hcheck (at_time 0 7 40) (at_time 0 7 40) key_b flash));
      [by vm_compute | exact Hrow].
Defined.

(** A check at 07:40 of a ledger reset at 07:00. *)
Lemma check_reset_is_stable_witness :
  _check_reset (at_time 0 7 40) three_failures = three_failures.
Proof.
  apply (proj1 (proj2 (QuotaMore.check_reset_is_stable (at_time 0 7 40) three_failures)));
    [vm_compute; by eexists | by vm_compute].
Defined.

(** Three failures of [key_a] under one model leave it available under
    another, and leave [key_b] available. *)
Lemma records_are_per_key_and_model_witness :
  kid_a ≠ _generate_key_id plain_digest key_a "gemini-2.5-pro"
  ∧ fst (is_exhausted plain_digest (at_time 0 7 40) (at_time 0 7 40) key_b flash
           (mark_failure plain_digest (at_time 0 7 30) key_a flash fresh_ledger))
    = fst (is_exhausted plain_digest (at_time 0 7 40) (at_time 0 7 40) key_b flash
             fresh_ledger).
Proof.
  split.
  - apply (proj1 (QuotaMore.records_are_per_key_and_model plain_digest key_a flash
                    key_a "gemini-2.5-pro")).
    vm_compute. discriminate.
  - apply (proj2 (proj2 (QuotaMore.records_are_per_key_and_model plain_digest key_a flash
                           key_b flash))
             (OpMarkFailure (at_time 0 7 30) key_a flash) fresh_ledger);
      [reflexivity | reflexivity | vm_compute; discriminate].
Defined.

End QuotaMoreRuns.

(** ** The scheduler: shape of the selection, and the selection on the
    quota manager *)

Module RotationMore.
Import Clock Quota Rotation RotationViews.

Lemma keep_available_sublist keys row : keep_available keys row `sublist_of` keys.
Proof.
  revert row. induction keys as [|k keys IH]; intros [|b row]; simpl;
    try apply sublist_nil_l.
  destruct b; [by apply sublist_cons | by apply sublist_skip].
Qed.

Lemma first_fit_rows_shape order keys table m ks :
  first_fit_rows order keys table = Some (m, ks) →
  m ∈ order ∧ ks ≠ [] ∧ ks `sublist_of` keys.
Proof.
  revert table. induction order as [|m0 order IH]; intros [|row table]; simpl; try done.
  pose proof (keep_available_sublist keys row) as Hsub.
  destruct (keep_available keys row) as [|k ks0] eqn:E.
  - intros H. destruct (IH _ H) as (Hm & Hne & Hs). split; [by right | done].
  - intros [= <- <-]. split; [by left | done].
Qed.

Lemma priority_entries_nonempty preferred m :
  m ∈ prioritise preferred model_priority → m ≠ ""%string.
Proof.
  unfold prioritise. destruct preferred as [p|].
  - destruct (String.eqb p "") eqn:E.
    + intros H ->. vm_compute in H. by repeat (apply elem_of_cons in H as [H|H]; [done|]);
        apply elem_of_nil in H.
    + apply String.eqb_neq in E. intros H. apply elem_of_cons in H as [->|H]; [done|].
      apply list_elem_of_filter in H as [_ H]. intros ->.
      by repeat (apply elem_of_cons in H as [H|H]; [done|]); apply elem_of_nil in H.
  - intros H ->.
    by repeat (apply elem_of_cons in H as [H|H]; [done|]); apply elem_of_nil in H.
Qed.

Section Scheduler.

Variable Ledger : Type.
Variable is_exhausted : string → string → Ledger → bool * Ledger.

Lemma first_available_no_keys order l :
  first_available Ledger is_exhausted order [] l = (None, l).
Proof. induction order as [|m order IH]; simpl; [done | exact IH]. Qed.

(** X13 (shape of the selection).  Whatever the ledger answers, with no
    configured key [_get_available_model_and_keys] returns [(None, [])]
    without asking the ledger anything; with at least one key it returns
    a model of the priority order, never the empty string, together with
    a non-empty list of configured keys in their configured order.  So
    the caller's guard [if model and available_keys] holds exactly when a
    key is configured, and [available_keys[0]] is then a configured key. *)
Theorem selection_is_usable preferred keys l :
  let result := _get_available_model_and_keys Ledger is_exhausted preferred keys l in
  (keys = [] → result = (Selected None [], l))
  ∧ (keys ≠ [] →
     ∃ m k0 ks, fst result = Selected (Some m) (k0 :: ks)
                ∧ m ≠ ""%string
                ∧ m ∈ prioritise preferred model_priority
                ∧ k0 ∈ keys
                ∧ k0 :: ks `sublist_of` keys).
Proof.
  intros result. split.
  - intros ->. subst result. unfold _get_available_model_and_keys, select_from; cbv zeta.
    by rewrite first_available_no_keys.
  - intros Hne. subst result. unfold _get_available_model_and_keys.
    rewrite RotationFacts.select_from_rows. unfold selection_of.
    assert (Ho : prioritise preferred model_priority ≠ [])
      by (by apply RotationFacts.prioritise_nonempty).
    assert (Hin : ∀ m, m ∈ prioritise preferred model_priority → m ≠ ""%string)
      by apply priority_entries_nonempty.
    destruct (first_fit_rows (prioritise preferred model_priority) keys _)
      as [[m ks]|] eqn:E.
    + destruct (first_fit_rows_shape _ _ _ _ _ E) as (Hm & Hks & Hsub).
      destruct ks as [|k0 ks]; [done|]. exists m, k0, ks.
      split; [done|]. split; [by apply Hin|]. split; [done|]. split; [|done].
      apply (elem_of_sublist (k0 :: ks)); [by left | done].
    + unfold fail_open. destruct keys as [|k0 keys]; [done|].
      destruct (prioritise preferred model_priority) as [|m0 order]; [done|].
      exists m0, k0, []. split; [done|].
      split; [apply Hin; by left|]. split; [by left|]. split; [by left|].
      apply sublist_skip, sublist_nil_l.
Qed.

End Scheduler.

(** *** On the quota manager *)

Section OnQuotaManager.

Variable h : string → string.
Variable clock : nat → Z.

Abbreviation ask := (quota_is_exhausted h clock).
Abbreviation key_of := (_generate_key_id h).

Lemma steady_reading t db first count i :
  steady clock t db first count →
  (first ≤ i < first + count)%nat →
  should_reset (clock i) db = false
  ∧ ∀ kid row u, quotas db !! kid = Some row → temp_exhausted_until row = Some u →
      (clock i <? u) = (t <? u).
Proof.
  intros [_ Hall] Hi. rewrite Forall_seq in Hall. destruct (Hall i Hi) as [Hs Hq].
  split; [done|]. intros kid row u Hrow Hu.
  specialize (Hq kid row Hrow). unfold quiet_row in Hq. rewrite Hu in Hq.
  by apply Bool.eqb_prop in Hq.
Qed.

Lemma is_exhausted_not_due t1 t2 k m db :
  should_reset t1 db = false →
  is_exhausted h t1 t2 k m db
  = match quotas db !! key_of k m with
    | Some row =>
        if truthy_text (exhausted_at row) then (true, db)
        else
          match temp_exhausted_until row with
          | Some u =>
              if t2 <? u then (true, db)
              else (unstable row,
                    with_quotas (<[key_of k m := set_temp None row]> (quotas db)) db)
          | None => (unstable row, db)
          end
    | None => (false, db)
    end.
Proof.
  intros Hs. unfold is_exhausted; cbv zeta.
  by rewrite (QuotaFacts.check_reset_not_due t1 db Hs).
Qed.

(** One query: the answer is the one of the instant [t], and the ledger
    it leaves answers as before and is as steady as before. *)
Lemma steady_query t db first count n k m :
  steady clock t db first count →
  (first ≤ n)%nat → (S n < first + count)%nat →
  ∃ db', ask k m (db, n) = (answer_at h t db k m, (db', S (S n)))
         ∧ steady clock t db' first count
         ∧ ∀ k' m', answer_at h t db' k' m' = answer_at h t db k' m'.
Proof.
  intros Hst Hlo Hhi.
  destruct (steady_reading t db first count n Hst) as [Hs _]; [lia|].
  destruct (steady_reading t db first count (S n) Hst) as [_ Hw]; [lia|].
  pose proof Hst as [Ht Hall].
  unfold quota_is_exhausted. unfold answer_at at 1.
  rewrite (is_exhausted_not_due (clock n) (clock (S n)) k m db Hs).
  rewrite (is_exhausted_not_due t t k m db Ht).
  destruct (quotas db !! key_of k m) as [row|] eqn:E; [|by exists db].
  destruct (truthy_text (exhausted_at row)) eqn:Ed; [by exists db|].
  destruct (temp_exhausted_until row) as [u|] eqn:Eu; [|by exists db].
  rewrite (Hw _ _ _ E Eu).
  destruct (t <? u) eqn:Elt; [by exists db|].
  eexists. split; [reflexivity|].
  assert (Ht' : should_reset t
                  (with_quotas (<[key_of k m := set_temp None row]> (quotas db)) db)
                = false) by exact Ht.
  split.
  - split; [done|]. apply Forall_seq. intros i Hi.
    rewrite Forall_seq in Hall. destruct (Hall i Hi) as [Hsi Hqi].
    split; [done|]. simpl. intros kid r Hr.
    destruct (decide (kid = key_of k m)) as [->|Hne].
    + rewrite lookup_insert_eq in Hr. by injection Hr as <-.
    + rewrite lookup_insert_ne in Hr by done. by apply (Hqi kid).
  - intros k' m'. unfold answer_at.
    rewrite (is_exhausted_not_due t t k' m' _ Ht').
    rewrite (is_exhausted_not_due t t k' m' db Ht). simpl.
    destruct (decide (key_of k' m' = key_of k m)) as [Heq|Hne].
    + rewrite Heq, lookup_insert_eq, E. simpl. by rewrite Ed, Eu, Elt.
    + rewrite lookup_insert_ne by done.
      destruct (quotas db !! key_of k' m') as [r|]; [|done].
      destruct (truthy_text (exhausted_at r)); [done|].
      destruct (temp_exhausted_until r) as [u'|]; [|done].
      by destruct (t <? u').
Qed.

Lemma steady_replies t db first count n keys m :
  steady clock t db first count →
  (first ≤ n)%nat → (n + 2 * length keys ≤ first + count)%nat →
  ∃ db', replies (DB * nat) ask (map (λ k, (k, m)) keys) (db, n)
         = (map (λ k, answer_at h t db k m) keys, (db', (n + 2 * length keys)%nat))
         ∧ steady clock t db' first count
         ∧ ∀ k' m', answer_at h t db' k' m' = answer_at h t db k' m'.
Proof.
  revert db n. induction keys as [|k keys IH]; intros db n Hst Hlo Hhi;
    cbn [replies map length] in *.
  - exists db. by rewrite Nat.add_0_r.
  - destruct (steady_query t db first count n k m Hst) as (db1 & -> & Hst1 & Hans1);
      [lia | lia |].
    destruct (IH db1 (S (S n)) Hst1) as (db2 & -> & Hst2 & Hans2); [lia | lia |].
    exists db2. split.
    + f_equal; [|f_equal; lia]. f_equal. apply map_ext. intros k0. apply Hans1.
    + split; [done|]. intros k' m'. by rewrite Hans2.
Qed.

Lemma steady_table t db first count n order keys :
  steady clock t db first count →
  (first ≤ n)%nat → (n + readings order keys ≤ first + count)%nat →
  reply_table (DB * nat) ask order keys (db, n) = table_of (answer_at h t db) order keys.
Proof.
  unfold readings.
  revert db n. induction order as [|m order IH]; intros db n Hst Hlo Hhi;
    cbn [reply_table table_of map length] in *; [done|].
  destruct (steady_replies t db first count n keys m Hst) as (db1 & -> & Hst1 & Hans1);
    [lia | lia |].
  f_equal. rewrite (IH db1 _ Hst1) by lia.
  unfold table_of. apply map_ext. intros m'. apply map_ext. intros k. apply Hans1.
Qed.

(** X14 (the scheduler on the quota manager).  While no daily reset falls
    due and no cooldown ends during the clock readings of a selection,
    the selection made on the quota manager is the first fit over the
    rows of the ledger: the first model of the priority order for which
    some key is not exhausted, with exactly the keys that are not.  The
    cooldowns that [is_exhausted] clears on the way change no answer.  As
    long as some key is free for some model, no key in cooldown, with a
    daily mark or with three failures is handed out; when none is free the
    selection fails open. *)
Theorem selection_on_steady_ledger t db n priority preferred keys :
  let order := prioritise preferred priority in
  let chosen := fst (select_from (DB * nat) ask priority preferred keys (db, n)) in
  steady clock t db n (readings order keys) →
  chosen = selectCandidate_spec (answer_at h t db) order keys
  ∧ (∀ m ks, chosen = Selected (Some m) ks →
       (∃ k' m', k' ∈ keys ∧ m' ∈ order ∧ answer_at h t db k' m' = false) →
       m ∈ order ∧ ∀ k, k ∈ ks ↔ k ∈ keys ∧ answer_at h t db k m = false)
  ∧ ((∀ k' m', k' ∈ keys → m' ∈ order → answer_at h t db k' m' = true) →
     chosen = fail_open order keys).
Proof.
  intros order chosen Hst.
  assert (Hspec : chosen = selectCandidate_spec (answer_at h t db) order keys).
  { subst chosen. rewrite RotationFacts.select_from_rows. fold order.
    rewrite (steady_table t db n (readings order keys) n order keys Hst) by lia.
    apply RotationFacts.selection_of_table_of. }
  assert (Hnone : first_fit (answer_at h t db) order keys = None →
                  ∀ k' m', k' ∈ keys → m' ∈ order → answer_at h t db k' m' = true).
  { intros Hn k' m' Hk Hm. apply RotationFacts.first_fit_None in Hn.
    rewrite Forall_forall in Hn. specialize (Hn m' Hm).
    destruct (answer_at h t db k' m') eqn:Ea; [done|].
    assert (Hin : k' ∈ not_exhausted_keys (answer_at h t db) m' keys).
    { unfold not_exhausted_keys. apply list_elem_of_In, filter_In.
      split; [by apply list_elem_of_In | by rewrite Ea]. }
    rewrite Hn in Hin. by apply elem_of_nil in Hin. }
  split; [exact Hspec|]. split.
  - intros m ks Hch (k' & m' & Hk' & Hm' & Hfree).
    rewrite Hspec in Hch. unfold selectCandidate_spec in Hch.
    destruct (first_fit (answer_at h t db) order keys) as [[m1 ks1]|] eqn:Efit.
    + injection Hch as <- <-.
      apply RotationFacts.first_fit_Some in Efit
        as (before & after & Ho & _ & Hks & _ & _).
      split; [rewrite Ho; apply elem_of_app; right; by left|].
      intros k. rewrite Hks. unfold not_exhausted_keys.
      rewrite list_elem_of_In, filter_In, <- list_elem_of_In.
      destruct (answer_at h t db k m1); simpl; split; intros [Hk Hb]; done.
    + rewrite (Hnone eq_refl k' m' Hk' Hm') in Hfree. done.
  - intros Hall. rewrite Hspec. unfold selectCandidate_spec.
    destruct (first_fit (answer_at h t db) order keys) as [[m1 ks1]|] eqn:Efit; [|done].
    apply RotationFacts.first_fit_Some in Efit
      as (before & after & Ho & _ & Hks & Hne & _).
    destruct ks1 as [|k1 ks1]; [done|].
    assert (Hin : k1 ∈ not_exhausted_keys (answer_at h t db) m1 keys)
      by (rewrite <- Hks; by left).
    unfold not_exhausted_keys in Hin.
    apply list_elem_of_In, filter_In in Hin as [Hin Hfree].
    rewrite (Hall k1 m1) in Hfree; [done | by apply list_elem_of_In |].
    rewrite Ho. apply elem_of_app. right. by left.
Qed.

End OnQuotaManager.
End RotationMore.

Module RotationMoreRuns.
Import Clock Quota Rotation RotationViews Samples Examples.

Abbreviation manager := (quota_is_exhausted plain_digest ticking).

(** Without keys nothing is asked; with two keys on a ledger without rows
    for the models of the priority list, both keys come back with the
    lightest model. *)
Lemma selection_is_usable_witness :
  _get_available_model_and_keys (DB * nat) manager None [] (all_cooling, O)
  = (Selected None [], (all_cooling, O))
  ∧ ∃ m k0 ks,
      fst (_get_available_model_and_keys (DB * nat) manager None [key_a; key_b]
             (all_cooling, O)) = Selected (Some m) (k0 :: ks)
      ∧ m ≠ ""%string
      ∧ m ∈ prioritise None model_priority
      ∧ k0 ∈ [key_a; key_b]
      ∧ k0 :: ks `sublist_of` [key_a; key_b].
Proof.
  split.
  - by apply (proj1 (RotationMore.selection_is_usable (DB * nat) manager None []
                       (all_cooling, O))).
  - by apply (proj2 (RotationMore.selection_is_usable (DB * nat) manager None
                       [key_a; key_b] (all_cooling, O))).
Defined.

Lemma rotation_ledger_steady :
  steady ticking (ticking 0) rotation_ledger 0
    (readings (prioritise (Some "B"%string) abc) [key_a; key_b]).
Proof.
  split; [by vm_compute|]. apply (bool_decide_unpack _). by vm_compute.
Qed.

(** The scheduler example during the twelve readings of its selection,
    all of them within the 30-second cooldowns armed at 07:30. *)
Lemma selection_on_steady_ledger_witness :
  fst (select_from (DB * nat) manager abc (Some "B"%string) [key_a; key_b]
         (rotation_ledger, O))
  = selectCandidate_spec (answer_at plain_digest (ticking 0) rotation_ledger)
      ["B"; "A"; "C"]%string [key_a; key_b]
  ∧ fst (select_from (DB * nat) manager abc None [key_a; key_b] (all_cooling, O))
    = Selected (Some "A"%string) [key_a].
Proof.
  split.
  - apply (proj1 (RotationMore.selection_on_steady_ledger plain_digest ticking
                    (ticking 0) rotation_ledger O abc (Some "B"%string) [key_a; key_b]
                    rotation_ledger_steady)).
  - assert (Hst : steady ticking (ticking 0) all_cooling 0
                    (readings (prioritise None abc) [key_a; key_b])).
    { split; [by vm_compute|]. apply (bool_decide_unpack _). by vm_compute. }
    apply (proj2 (proj2 (RotationMore.selection_on_steady_ledger plain_digest ticking
                           (ticking 0) all_cooling O abc None [key_a; key_b] Hst))).
    intros k' m' Hk Hm.
    apply list_elem_of_In in Hk. apply list_elem_of_In in Hm.
    vm_compute in Hk. vm_compute in Hm.
    destruct Hk as [<-|[<-|[]]]; destruct Hm as [<-|[<-|[<-|[]]]]; by vm_compute.
Defined.

End RotationMoreRuns.

(** ** The session as a whole *)

Module SessionMore.
Import Models Session SessionViews.















End SessionMore.

Module SessionMoreRuns.
Import Models Session SessionViews Samples.




End SessionMoreRuns.

(** ** The interceptor over a stream of responses *)

Module InterceptorMore.
Import Models Interceptor InterceptorViews.

(** The verdict queue after a response depends on the verdict queue before
    it only. *)
Lemma task_handler_verdicts r q1 q2 :
  captcha_response_queue q1 = captcha_response_queue q2 →
  captcha_response_queue (task_handler r q1) = captcha_response_queue (task_handler r q2).
Proof.
  intros Hq. unfold task_handler, getcaptcha_json, checkcaptcha.
  repeat (case_match; simpl); by rewrite ?Hq.
Qed.

Lemma handle_all_verdicts rs q1 q2 :
  captcha_response_queue q1 = captcha_response_queue q2 →
  captcha_response_queue (handle_all rs q1) = captcha_response_queue (handle_all rs q2).
Proof.
  revert q1 q2. induction rs as [|r rs IH]; intros q1 q2 Hq; simpl; [done|].
  apply IH. by apply task_handler_verdicts.
Qed.

Lemma handle_all_app rs1 rs2 q :
  handle_all (rs1 ++ rs2) q = handle_all rs2 (handle_all rs1 q).
Proof. unfold handle_all. by rewrite fold_left_app. Qed.

Lemma drains_unfold r :
  drains r = true →
  endswith (url r) "/hsw.js" = false
  ∧ contains "/getcaptcha/" (url r) = true
  ∧ content_type r = Some "application/json"%string
  ∧ ∃ data, json r = Some data ∧ data_pass data = true.
Proof.
  unfold drains, is_getcaptcha, is_json. intros H.
  apply andb_prop in H as [H Hp]. apply andb_prop in H as [H Hj].
  apply andb_prop in H as [Hh Hg]. apply negb_true_iff in Hh.
  apply bool_decide_eq_true in Hj.
  destruct (json r) as [data|]; [|done]. repeat split; try done. by exists data.
Qed.

Lemma drains_verdicts r q1 q2 :
  drains r = true →
  captcha_response_queue (task_handler r q1) = captcha_response_queue (task_handler r q2).
Proof.
  intros H. destruct (drains_unfold r H) as (Hh & Hg & Hc & data & Hj & Hp).
  unfold task_handler. rewrite Hh, Hg. rewrite !decide_True by done.
  unfold getcaptcha_json. rewrite Hj, Hp. by destruct (as_response data).
Qed.

Lemma task_handler_grows r q :
  drains r = false →
  ∃ new, captcha_response_queue (task_handler r q) = captcha_response_queue q ++ new.
Proof.
  intros H. unfold task_handler, getcaptcha_json, checkcaptcha.
  unfold drains, is_getcaptcha, is_json in H.
  destruct (endswith (url r) "/hsw.js"); [by exists []; rewrite app_nil_r|].
  destruct (contains "/getcaptcha/" (url r)); simpl in H.
  - case_decide as Hc.
    + rewrite bool_decide_eq_true_2 in H by done. simpl in H.
      destruct (json r) as [data|]; [|by exists []; rewrite app_nil_r].
      rewrite H. repeat (case_match; simpl); by exists []; rewrite app_nil_r.
    + by exists []; rewrite app_nil_r.
  - repeat (case_match; simpl); try (by exists []; rewrite app_nil_r). by eexists [_].
Qed.

(** X18 (what the verdict queue remembers).  A JSON [/getcaptcha/] body
    with a truthy ["pass"] makes the verdict queue forget everything that
    came before it: after a stream that contains such a response the
    queue is what the responses from that one on would have left in any
    queue.  A stream without such a response never removes a verdict: the
    queue only grows at its tail. *)
Theorem verdict_queue_forgets_at_pass rs1 r rs2 q :
  (drains r = true →
   ∀ q', captcha_response_queue (handle_all (rs1 ++ r :: rs2) q)
         = captcha_response_queue (handle_all (r :: rs2) q'))
  ∧ (forallb (λ r', negb (drains r')) rs1 = true →
     ∃ new, captcha_response_queue (handle_all rs1 q)
            = captcha_response_queue q ++ new).
Proof.
  split.
  - intros Hd q'. rewrite handle_all_app. cbn [handle_all fold_left].
    apply handle_all_verdicts. by apply drains_verdicts.
  - revert q. induction rs1 as [|r1 rs1 IH]; intros q Hall; simpl in *.
    + exists []. by rewrite app_nil_r.
    + apply andb_prop in Hall as [Hr Hrest]. apply negb_true_iff in Hr.
      destruct (task_handler_grows r1 q Hr) as (n1 & Hn1).
      destruct (IH (task_handler r1 q) Hrest) as (n2 & Hn2).
      exists (n1 ++ n2). fold (handle_all rs1 (task_handler r1 q)).
      by rewrite Hn2, Hn1, app_assoc.
Qed.

Lemma handle_all_payloads rs q :
  ∃ new, captcha_payload_queue (handle_all rs q) = captcha_payload_queue q ++ new
         ∧ (length new ≤ length rs)%nat.
Proof.
  revert q. induction rs as [|r rs IH]; intros q; simpl.
  - exists []. by rewrite app_nil_r.
  - assert (H1 : ∃ new, captcha_payload_queue (task_handler r q)
                        = captcha_payload_queue q ++ new ∧ (length new ≤ 1)%nat).
    { unfold task_handler, getcaptcha_json, checkcaptcha.
      repeat (case_match; simpl);
        try (by exists []; rewrite app_nil_r; split; [done | simpl; lia]);
        by eexists [_]. }
    destruct H1 as (n1 & Hn1 & Hl1).
    destruct (IH (task_handler r q)) as (n2 & Hn2 & Hl2).
    exists (n1 ++ n2). fold (handle_all rs (task_handler r q)).
    rewrite Hn2, Hn1, app_assoc, length_app. split; [done | lia].
Qed.

(** X19 (the payload queue).  The handler never takes anything out of the
    payload queue: over any stream of responses the entries not yet
    consumed stay, in order, and every response adds at most one entry.
    A [/getcaptcha/] response whose processing fails adds exactly the
    entry [None], which wakes the consumer instead of leaving it to its
    timeout; when the failure is a ["pass"] body that does not validate,
    the pending verdicts have been thrown away before. *)
Theorem payload_queue_only_grows rs r q :
  (∃ new, captcha_payload_queue (handle_all rs q) = captcha_payload_queue q ++ new
          ∧ (length new ≤ length rs)%nat)
  ∧ (broken_getcaptcha r = true →
     captcha_payload_queue (task_handler r q) = captcha_payload_queue q ++ [None]
     ∧ (drains r = true → captcha_response_queue (task_handler r q) = [])
     ∧ (drains r = false →
        captcha_response_queue (task_handler r q) = captcha_response_queue q)).
Proof.
  split; [apply handle_all_payloads|].
  unfold broken_getcaptcha, drains, is_getcaptcha, is_json, task_handler, getcaptcha_json.
  intros H. apply andb_prop in H as [Hg H]. rewrite Hg.
  apply andb_prop in Hg as [Hh Hg]. apply negb_true_iff in Hh. rewrite Hh, Hg.
  case_decide as Hc.
  - rewrite bool_decide_eq_true_2 in * by done. simpl.
    destruct (json r) as [data|]; [|by repeat split].
    destruct (data_pass data).
    + apply negb_true_iff, bool_decide_eq_false in H.
      destruct (as_response data) as [cr|]; [by destruct H; eexists|].
      by repeat split.
    + apply andb_prop in H as [Hrc H]. rewrite Hrc.
      apply negb_true_iff, bool_decide_eq_false in H.
      destruct (as_payload data) as [p|]; [by destruct H; eexists|].
      by repeat split.
  - rewrite bool_decide_eq_false_2 in * by done. simpl.
    apply negb_true_iff, bool_decide_eq_false in H.
    destruct (hsw_decoded r) as [p|]; [by destruct H; eexists|].
    by repeat split.
Qed.

End InterceptorMore.

Module InterceptorMoreRuns.
Import Models Interceptor InterceptorViews Samples Examples.

(** A failing [/checkcaptcha/] verdict, then the pass of a [/getcaptcha/]
    body, then another failing verdict: the first verdict is forgotten. *)
Lemma verdict_queue_forgets_at_pass_witness :
  captcha_response_queue
    (handle_all ([check_fail] ++ getcaptcha_pass :: [check_fail]) empty_queues)
  = [verdict_pass; verdict_fail]
  ∧ ∃ new, captcha_response_queue (handle_all [check_fail; check_pass] empty_queues)
           = captcha_response_queue empty_queues ++ new.
Proof.
  destruct (InterceptorMore.verdict_queue_forgets_at_pass [check_fail] getcaptcha_pass
              [check_fail] empty_queues) as [Hforget _].
  destruct (InterceptorMore.verdict_queue_forgets_at_pass [check_fail; check_pass]
              getcaptcha_pass [] empty_queues) as [_ Hgrow].
  split.
  - rewrite (Hforget eq_refl empty_queues). reflexivity.
  - apply Hgrow. reflexivity.
Defined.

(** A ["pass"] body that does not validate, arriving while a verdict is
    pending. *)
Lemma payload_queue_only_grows_witness :
  let q := handle_all [check_fail] empty_queues in
  captcha_response_queue q = [verdict_fail]
  ∧ captcha_payload_queue (task_handler getcaptcha_bad_pass q) = [None]
  ∧ captcha_response_queue (task_handler getcaptcha_bad_pass q) = [].
Proof.
  intros q. split; [reflexivity|].
  destruct (InterceptorMore.payload_queue_only_grows [] getcaptcha_bad_pass q)
    as [_ Hbroken].
  destruct (Hbroken eq_refl) as (Hpay & Hdrain & _).
  split; [exact Hpay | by apply Hdrain].
Defined.

End InterceptorMoreRuns.
